(** * Roommate expense tracker: the balance and settlement engine

    A shallow embedding of the calculation, storage, presence and member
    modules (js/calculate.js, js/storage.js, js/presence.js, js/members.js)
    together with the properties the specification states about them and
    further properties read off the code.

    Conventions of the embedding.
    - A JavaScript number is an exact rational ([Q]): additions,
      subtractions and divisions are exact, and [toFixed] rounds the exact
      value half away from zero.  IEEE-754 rounding error, NaN and the
      infinities are outside the model.
    - A JavaScript object used as a dictionary is a [gmap string _];
      arrays are lists, indexed and updated in place with [!!] and [<[_:=_]>].
    - A function that can [throw] returns a [result]; a function that writes
      to localStorage takes the store and returns the store it leaves.
    - Dates are the millisecond values [new Date(s)] yields ([Z]); a missing
      field is [None]. *)

From Stdlib Require Import QArith Qround Qabs Lqa ZArith.
From Stdlib Require OrderedTypeEx.
From stdpp Require Import base option list gmap strings fin_maps.

#[local] Set Warnings "-clear-no-such-hyp".

Local Open Scope string_scope.
Local Open Scope list_scope.

(** ** JavaScript numbers and truthiness *)

Module Num.

(** [a < b] and [a > b] on numbers. *)
Definition ltb (a b : Q) : bool :=
  match (a ?= b)%Q with Lt => true | _ => false end.

Definition gtb (a b : Q) : bool := ltb b a.

(** [Math.min(a, b)]. *)
Definition min (a b : Q) : Q := if ltb b a then b else a.

(** [x || 0] for a possibly missing number. *)
Definition or0 (o : option Q) : Q := default 0%Q o.

(** The integer [n] for which [n - q] is closest to zero, the one of
    larger magnitude on a tie (ECMAScript Number.prototype.toFixed). *)
Definition round_half_away (q : Q) : Z :=
  if Qle_bool 0 q then Qfloor (q + (1 # 2))
  else (- Qfloor (- q + (1 # 2)))%Z.

Definition pow10 (digits : nat) : Q := inject_Z (10 ^ Z.of_nat digits).

(** [parseFloat(q.toFixed(digits))]; the result is in lowest terms. *)
Definition toFixed (digits : nat) (q : Q) : Q :=
  Qred (inject_Z (round_half_away (q * pow10 digits)) / pow10 digits).

(** Truthiness of a string: only the empty string is falsy. *)
Definition truthy (s : string) : bool :=
  match s with EmptyString => false | _ => true end.

(** [s.charAt(0)]. *)
Definition charAt0 (s : string) : string :=
  match s with EmptyString => "" | String c _ => String c "" end.

(** [a || b] on strings. *)
Definition orElse (a b : string) : string := if truthy a then a else b.

(** [Array.prototype.sort(cmp)]: the sort is stable, and [cmp a b] tells
    whether [a] goes before ([Lt]), with ([Eq]) or after ([Gt]) [b]. *)
Section Sort.
Context {A : Type} (cmp : A → A → comparison).

Fixpoint insert_sorted (x : A) (l : list A) : list A :=
  match l with
  | [] => [x]
  | y :: l' =>
      match cmp x y with
      | Gt => y :: insert_sorted x l'
      | _ => x :: l
      end
  end.

Definition sort (l : list A) : list A := foldr insert_sorted [] l.
End Sort.

End Num.

(** ** Records of the data model *)

Module Member.
Record t := mk {
  id : string;
  name : string;
  color : string;
  avatar : string
}.
End Member.

Module ExpenseData.
Record t := mk {
  id : string;
  title : string;
  amount : option Q;
  paidBy : string;
  splitType : string;
  splitBetween : option (list string);
  splitDetails : option (gmap string Q);
  category : string;
  date : option Z;
  notes : string
}.

Definition with_split (e : t) (sb : option (list string))
    (sd : option (gmap string Q)) : t :=
  mk (id e) (title e) (amount e) (paidBy e) (splitType e) sb sd
     (category e) (date e) (notes e).
End ExpenseData.

Module Absence.
(** A stored absence record. *)
Record t := mk {
  id : string;
  memberId : string;
  startDate : Z;
  endDate : option Z;
  reason : string;
  createdAt : Z;
  updatedAt : Z
}.

(** The argument of [savePresenceRecord]: the id may be missing. *)
Record data := mkData {
  d_id : option string;
  d_memberId : string;
  d_startDate : Z;
  d_endDate : option Z;
  d_reason : string
}.

(** The [updates] object of [updateAbsence]: every field is optional. *)
Record updates := mkUpdates {
  u_memberId : option string;
  u_startDate : option Z;
  u_endDate : option (option Z);
  u_reason : option string
}.
End Absence.

(** What a throwing function yields. *)
Inductive result (A : Type) : Type :=
  | Ok (a : A)
  | Throw (msg : string).
Arguments Ok {A} a.
Arguments Throw {A} msg.

(** ** js/storage.js *)

Module Storage.

(** The localStorage keys the engine reads and writes. *)
Record store := mkStore {
  members : list Member.t;
  expenses : gmap string (list ExpenseData.t);
  presence : list Absence.t;
  lockedMonths : list string
}.

Definition getMembers (st : store) : list Member.t := members st.
Definition getExpenses (st : store) : gmap string (list ExpenseData.t) :=
  expenses st.
Definition getPresenceRecords (st : store) : list Absence.t := presence st.

(** [expense.paidBy === memberId ||
     (expense.splitBetween && expense.splitBetween.includes(memberId))] *)
Definition refersTo (memberId : string) (e : ExpenseData.t) : bool :=
  bool_decide (ExpenseData.paidBy e = memberId)
  || match ExpenseData.splitBetween e with
     | Some sb => bool_decide (memberId ∈ sb)
     | None => false
     end.

Definition hasExpenses (memberId : string) (st : store) : bool :=
  existsb (λ kv : string * list ExpenseData.t, existsb (refersTo memberId) kv.2)
          (map_to_list (getExpenses st)).

Definition deleteMember (memberId : string) (st : store)
    : result bool * store :=
  if hasExpenses memberId st then
    (Throw "Cannot delete member with existing expenses", st)
  else
    let filteredMembers :=
      filter (λ m, Member.id m ≠ memberId) (getMembers st) in
    let filteredPresence :=
      filter (λ r, Absence.memberId r ≠ memberId) (getPresenceRecords st) in
    (Ok true,
     mkStore filteredMembers (expenses st) filteredPresence (lockedMonths st)).

(** [new Date(a) > new Date(b)] where [b] may be missing (an invalid date
    compares false with everything). *)
Definition dateGt (a : Z) (b : option Z) : bool :=
  match b with Some b => bool_decide (b < a)%Z | None => false end.

(** [record.id || generateId()], [fresh] being what [generateId()] returns. *)
Definition idOr (id : option string) (fresh : string) : string :=
  match id with
  | Some id => Num.orElse id fresh
  | None => fresh
  end.

(** [now] is the current time. *)
Definition savePresenceRecord (fresh : string) (now : Z)
    (record : Absence.data) (st : store) : result Absence.t * store :=
  let records := getPresenceRecords st in
  let newRecord :=
    Absence.mk (idOr (Absence.d_id record) fresh)
               (Absence.d_memberId record)
               (Absence.d_startDate record)
               (Some (default (Absence.d_startDate record)
                              (Absence.d_endDate record)))
               (Absence.d_reason record) now now in
  let newEnd := default (Absence.d_startDate record) (Absence.d_endDate record) in
  let overlapping :=
    filter (λ r, Absence.memberId r = Absence.memberId newRecord
                 ∧ ¬ (bool_decide (newEnd < Absence.startDate r)%Z
                      || dateGt (Absence.startDate newRecord) (Absence.endDate r)))
           records in
  if bool_decide (0 < length overlapping)%nat then
    (Throw "Overlapping absence records found", st)
  else
    let records' :=
      match list_find (λ r, Absence.id r = Absence.id newRecord) records with
      | Some (index, _) => <[index := newRecord]> records
      | None => records ++ [newRecord]
      end in
    (Ok newRecord,
     mkStore (members st) (expenses st) records' (lockedMonths st)).


(** [records.filter(r => r.id !== recordId)]; always returns [true]. *)
Definition deletePresenceRecord (recordId : string) (st : store)
    : result bool * store :=
  let filteredRecords :=
    filter (λ r, Absence.id r ≠ recordId) (getPresenceRecords st) in
  (Ok true,
   mkStore (members st) (expenses st) filteredRecords (lockedMonths st)).

Definition getLockedMonths (st : store) : list string := lockedMonths st.

(** [lockMonth] returns the list it leaves in the store. *)
Definition lockMonth (monthKey : string) (st : store)
    : result (list string) * store :=
  let locked := getLockedMonths st in
  if bool_decide (monthKey ∈ locked) then (Ok locked, st)
  else
    (Ok (locked ++ [monthKey]),
     mkStore (members st) (expenses st) (presence st) (locked ++ [monthKey])).

Definition unlockMonth (monthKey : string) (st : store)
    : result (list string) * store :=
  let filteredMonths := filter (λ m, m ≠ monthKey) (getLockedMonths st) in
  (Ok filteredMonths,
   mkStore (members st) (expenses st) (presence st) filteredMonths).

(** [getExpenses(monthKey)] for a non-empty month key:
    [allExpenses[monthKey] || []]. *)
Definition getMonthExpenses (monthKey : string) (st : store)
    : list ExpenseData.t :=
  default [] (getExpenses st !! monthKey).

(** The month key [saveExpense] derives from [expense.date]; [monthKeyOf]
    is the calendar computation on a valid date
    ([getFullYear()]-[getMonth() + 1], zero padded), and a missing date
    gives an invalid [Date], hence "NaN-NaN". *)
Definition monthKeyFor (monthKeyOf : Z → string) (date : option Z) : string :=
  match date with
  | Some d => monthKeyOf d
  | None => "NaN-NaN"
  end.

(** [saveExpense]; [fresh] is what [generateId()] returns and [today] the
    current day.  The creation and update timestamps of the stored object
    are not part of the record. *)
Definition saveExpense (monthKeyOf : Z → string) (fresh : string) (today : Z)
    (expense : ExpenseData.t) (st : store) : result ExpenseData.t * store :=
  if negb (Num.truthy (ExpenseData.title expense))
     || match ExpenseData.amount expense with
        | Some a => Qeq_bool a 0
        | None => true
        end
     || negb (Num.truthy (ExpenseData.paidBy expense))
     || match ExpenseData.splitBetween expense with
        | Some _ => false
        | None => true
        end
  then (Throw "Missing required expense fields", st)
  else
    let allExpenses := getExpenses st in
    let monthKey := monthKeyFor monthKeyOf (ExpenseData.date expense) in
    if bool_decide (monthKey ∈ getLockedMonths st) then
      (Throw ("Month " ++ monthKey ++ " is locked and cannot be modified")%string,
       st)
    else
      let newExpense :=
        ExpenseData.mk
          fresh
          (ExpenseData.title expense)
          (ExpenseData.amount expense)
          (ExpenseData.paidBy expense)
          (Num.orElse (ExpenseData.splitType expense) "equal")
          (ExpenseData.splitBetween expense)
          (Some (default ∅ (ExpenseData.splitDetails expense)))
          (Num.orElse (ExpenseData.category expense) "Other")
          (Some (default today (ExpenseData.date expense)))
          (ExpenseData.notes expense) in
      (Ok newExpense,
       mkStore (members st)
               (<[monthKey := default [] (allExpenses !! monthKey) ++ [newExpense]]>
                  allExpenses)
               (presence st) (lockedMonths st)).

End Storage.

(** ** js/presence.js *)

Module Presence.

Definition getAll (st : Storage.store) : list Absence.t :=
  Storage.getPresenceRecords st.

(** [records.find(record => record.id === recordId) || null] *)
Definition getById (recordId : string) (st : Storage.store)
    : option Absence.t :=
  snd <$> list_find (λ record, Absence.id record = recordId) (getAll st).

(** The callback of [records.some] in [isAbsent] and [getAbsentMembers]:
    the record is the member's and its inclusive range holds the date. *)
Definition covers (memberId : string) (targetDate : Z) (record : Absence.t)
    : bool :=
  if bool_decide (Absence.memberId record ≠ memberId) then false
  else
    let startDate := Absence.startDate record in
    let endDate := default startDate (Absence.endDate record) in
    bool_decide (startDate ≤ targetDate)%Z
    && bool_decide (targetDate ≤ endDate)%Z.

Definition isAbsent (memberId : string) (date : Z) (st : Storage.store)
    : bool :=
  existsb (covers memberId date) (getAll st).

Definition getAbsentMembers (date : Z) (st : Storage.store)
    : list Member.t :=
  let members := Storage.getMembers st in
  let absenceRecords := getAll st in
  filter (λ member, Is_true (existsb (covers (Member.id member) date)
                                     absenceRecords))
         members.

(** [{ ...record, ...updates, id: recordId }] handed to the store. *)
Definition updateAbsence (fresh : string) (now : Z) (recordId : string)
    (updates : Absence.updates) (st : Storage.store)
    : result Absence.t * Storage.store :=
  match getById recordId st with
  | None => (Throw "Absence record not found", st)
  | Some record =>
      let updatedData :=
        Absence.mkData
          (Some recordId)
          (default (Absence.memberId record) (Absence.u_memberId updates))
          (default (Absence.startDate record) (Absence.u_startDate updates))
          (default (Absence.endDate record) (Absence.u_endDate updates))
          (default (Absence.reason record) (Absence.u_reason updates)) in
      Storage.savePresenceRecord fresh now updatedData st
  end.


(** [records.filter(record => record.memberId === memberId)] *)
Definition getByMember (memberId : string) (st : Storage.store)
    : list Absence.t :=
  filter (λ record, Absence.memberId record = memberId) (getAll st).

(** [getByDateRange(startDate, endDate)]: the records whose range meets
    the given one; a missing end date stands for the start date on both
    sides. *)
Definition getByDateRange (startDate : Z) (endDate : option Z)
    (st : Storage.store) : list Absence.t :=
  let start := startDate in
  let end_ := default startDate endDate in
  filter (λ record,
            let recordStart := Absence.startDate record in
            let recordEnd :=
              default (Absence.startDate record) (Absence.endDate record) in
            ¬ ((recordEnd < start)%Z ∨ (end_ < recordStart)%Z))
         (getAll st).

(** [members.filter(member =>
       !absentMembers.some(absent => absent.id === member.id))] *)
Definition getPresentMembers (date : Z) (st : Storage.store)
    : list Member.t :=
  let members := Storage.getMembers st in
  let absentMembers := getAbsentMembers date st in
  filter (λ member,
            ¬ Is_true (existsb (λ absent, bool_decide (Member.id absent
                                                        = Member.id member))
                               absentMembers))
         members.

Definition deleteAbsence (recordId : string) (st : Storage.store)
    : result bool * Storage.store :=
  Storage.deletePresenceRecord recordId st.

End Presence.

(** ** js/members.js *)

Module Members.

Definition getAll (st : Storage.store) : list Member.t := Storage.getMembers st.

(** [members.find(member => member.id === memberId) || null] *)
Definition getById (memberId : string) (st : Storage.store)
    : option Member.t :=
  snd <$> list_find (λ member, Member.id member = memberId) (getAll st).

Definition remove (memberId : string) (st : Storage.store)
    : result bool * Storage.store :=
  Storage.deleteMember memberId st.

(** [getPresentMembers(date)]: the members no absence record keeps away
    on that day, computed from the records directly. *)
Definition getPresentMembers (date : Z) (st : Storage.store)
    : list Member.t :=
  let allMembers := getAll st in
  let absenceRecords := Storage.getPresenceRecords st in
  filter (λ member,
            let isAbsent :=
              existsb (λ record,
                         let startDate := Absence.startDate record in
                         let endDate :=
                           default startDate (Absence.endDate record) in
                         bool_decide (Absence.memberId record = Member.id member)
                         && bool_decide (startDate ≤ date)%Z
                         && bool_decide (date ≤ endDate)%Z)
                      absenceRecords in
            ¬ Is_true isAbsent)
         allMembers.

End Members.

(** ** js/calculate.js: the calculation module *)

(** A creditor or debtor entry of the settlement planner. *)
Module Party.
Record t := mk {
  id : string;
  name : string;
  avatar : string;
  color : string;
  amount : Q
}.

Definition setAmount (p : t) (a : Q) : t :=
  mk (id p) (name p) (avatar p) (color p) a.
End Party.

(** A settlement instruction: [from] pays [amount] to [to]. *)
Module Instr.
Record t := mk {
  from : string;
  fromName : string;
  fromAvatar : string;
  fromColor : string;
  to : string;
  toName : string;
  toAvatar : string;
  toColor : string;
  amount : Q
}.
End Instr.

(** A month bucket of [calculateTrends]; [growth] is undefined until set. *)
Module Trend.
Record t := mk {
  month : string;
  total : Q;
  count : nat;
  average : Q;
  growth : option Q
}.

Definition setGrowth (tr : t) (g : Q) : t :=
  mk (month tr) (total tr) (count tr) (average tr) (Some g).
End Trend.

(** An entry of the category breakdown. *)
Module Category.
Record t := mk {
  amount : Q;
  percentage : Q;
  count : nat
}.
End Category.

(** The result of [calculateSettlementImpact]. *)
Module Impact.
Record t := mk {
  totalSettlements : nat;
  totalAmount : Q;
  averageAmount : Q;
  maxAmount : Q;
  minAmount : Q
}.
End Impact.

(** A month of [calculateMonthlyAverages]; the display name of the month
    is left out. *)
Module MonthlyAverage.
Record t := mk {
  month : string;
  total : Q;
  average : Q;
  expenseCount : nat
}.
End MonthlyAverage.

Module Calculate.

(** [obj[k] = (obj[k] || 0) + v] *)
Definition addTo (obj : gmap string Q) (k : string) (v : Q) : gmap string Q :=
  <[k := (Num.or0 (obj !! k) + v)%Q]> obj.

(** [participants.forEach(id => splitDetails[id] = v)] *)
Definition assignAll (v : Q) (participants : list string)
    : gmap string Q :=
  foldl (λ splitDetails participantId, <[participantId := v]> splitDetails)
        ∅ participants.

Definition calculateEqualSplit (amount : Q) (participants : list string)
    : result (gmap string Q) :=
  if bool_decide (length participants = 0)%nat then
    Throw "Participants array is required"
  else if Qle_bool amount 0 then
    Throw "Valid amount is required"
  else
    let share := (amount / inject_Z (Z.of_nat (length participants)))%Q in
    Ok (assignAll (Num.toFixed 2 share) participants).

(** The callback of the two inner [forEach] loops of [calculateBalances]. *)
Definition chargeShare (paidBy : string) (balances : gmap string Q)
    (participantId : string) (share : Q) : gmap string Q :=
  if bool_decide (participantId ≠ paidBy)
  then addTo balances participantId (- share)%Q
  else balances.

(** The body of [expenses.forEach] in [calculateBalances]. *)
Definition applyExpense (balances : gmap string Q) (expense : ExpenseData.t)
    : gmap string Q :=
  let paidBy := ExpenseData.paidBy expense in
  let amount := Num.or0 (ExpenseData.amount expense) in
  let balances := addTo balances paidBy amount in
  match ExpenseData.splitDetails expense with
  | Some splitDetails =>
      foldl (λ b (kv : string * Q), chargeShare paidBy b kv.1 kv.2)
            balances (map_to_list splitDetails)
  | None =>
      match ExpenseData.splitBetween expense with
      | Some (_ :: _ as splitBetween) =>
          let share :=
            (amount / inject_Z (Z.of_nat (length splitBetween)))%Q in
          foldl (λ b participantId, chargeShare paidBy b participantId share)
                balances splitBetween
      | _ => balances
      end
  end.

(** [members.forEach(member => balances[member.id] = 0)] *)
Definition initBalances (members : list Member.t) : gmap string Q :=
  foldl (λ balances member, <[Member.id member := 0%Q]> balances) ∅ members.

(** The [try] block up to the rounding: a [null] entry of [expenses]
    ([None]) makes [expense.paidBy] raise a TypeError ([None]). *)
Definition aggregate (expenses : list (option ExpenseData.t))
    (members : list Member.t) : option (gmap string Q) :=
  foldl (λ acc entry,
           balances ← acc; expense ← entry;
           Some (applyExpense balances expense))
        (Some (initBalances members)) expenses.

(** [calculateBalances]; the [catch] clause returns the empty object. *)
Definition calculateBalances (expenses : list (option ExpenseData.t))
    (members : list Member.t) : gmap string Q :=
  match aggregate expenses members with
  | Some balances => Num.toFixed 2 <$> balances
  | None => ∅
  end.

(** *** calculateSettlements *)

Definition mkParty (member : Member.t) (amount : Q) : Party.t :=
  Party.mk (Member.id member) (Member.name member)
           (Num.orElse (Member.avatar member) (Num.charAt0 (Member.name member)))
           (Num.orElse (Member.color member) "#3B82F6")
           amount.

(** The callback of [members.forEach]: push onto [creditors] or [debtors]. *)
Definition classify (balances : gmap string Q)
    (acc : list Party.t * list Party.t) (member : Member.t)
    : list Party.t * list Party.t :=
  let balance := Num.or0 (balances !! Member.id member) in
  if Num.gtb balance 0.01 then (acc.1 ++ [mkParty member balance], acc.2)
  else if Num.ltb balance (-0.01) then
    (acc.1, acc.2 ++ [mkParty member (- balance)%Q])
  else acc.

(** [(a, b) => b.amount - a.amount] *)
Definition byAmountDesc (a b : Party.t) : comparison :=
  (Party.amount b ?= Party.amount a)%Q.

(** The variables of [calculateSettlements]; [balances] is the argument
    object, the two arrays hold objects the function creates itself. *)
Record planner := mkPlanner {
  balances : gmap string Q;
  creditors : list Party.t;
  debtors : list Party.t;
  i : nat;
  j : nat;
  settlements : list Instr.t
}.

Definition init (balances : gmap string Q) (members : list Member.t)
    : planner :=
  let parts := foldl (classify balances) ([], []) members in
  mkPlanner balances
            (Num.sort byAmountDesc parts.1)
            (Num.sort byAmountDesc parts.2)
            0 0 [].

(** [i < creditors.length && j < debtors.length] *)
Definition running (s : planner) : bool :=
  bool_decide (i s < length (creditors s))%nat
  && bool_decide (j s < length (debtors s))%nat.

Definition mkInstr (debtor creditor : Party.t) (settleAmount : Q) : Instr.t :=
  Instr.mk (Party.id debtor) (Party.name debtor)
           (Party.avatar debtor) (Party.color debtor)
           (Party.id creditor) (Party.name creditor)
           (Party.avatar creditor) (Party.color creditor)
           (Num.toFixed 2 settleAmount).

(** The [if (settleAmount > 0.01)] block: push and decrement in place. *)
Definition settle (s : planner) (creditor debtor : Party.t) : planner :=
  let settleAmount := Num.min (Party.amount creditor) (Party.amount debtor) in
  if Num.gtb settleAmount 0.01 then
    mkPlanner
      (balances s)
      (<[i s := Party.setAmount creditor
                  (Party.amount creditor - settleAmount)%Q]> (creditors s))
      (<[j s := Party.setAmount debtor
                  (Party.amount debtor - settleAmount)%Q]> (debtors s))
      (i s) (j s)
      (settlements s ++ [mkInstr debtor creditor settleAmount])
  else s.

(** [if (p.amount < 0.01) k++] on the entry [k] points to. *)
Definition advance (l : list Party.t) (k : nat) : nat :=
  match l !! k with
  | Some p => if Num.ltb (Party.amount p) 0.01 then S k else k
  | None => k
  end.

(** One iteration of the [while] body. *)
Definition step (s : planner) : planner :=
  match creditors s !! i s, debtors s !! j s with
  | Some creditor, Some debtor =>
      let s1 := settle s creditor debtor in
      mkPlanner (balances s1) (creditors s1) (debtors s1)
                (advance (creditors s1) (i s1))
                (advance (debtors s1) (j s1))
                (settlements s1)
  | _, _ => s
  end.

(** The [while] loop, run for at most [fuel] iterations: [None] when the
    loop is still running after them. *)
Fixpoint loop (fuel : nat) (s : planner) : option planner :=
  if running s then
    match fuel with
    | O => None
    | S fuel' => loop fuel' (step s)
    end
  else Some s.

Definition run (fuel : nat) (balances : gmap string Q)
    (members : list Member.t) : option planner :=
  loop fuel (init balances members).

Definition calculateSettlements (fuel : nat) (balances : gmap string Q)
    (members : list Member.t) : option (list Instr.t) :=
  settlements <$> run fuel balances members.

(** *** calculateTrends *)

(** [expenses.reduce((sum, expense) => sum + (expense.amount || 0), 0)] *)
Definition sumAmounts (expenses : list ExpenseData.t) : Q :=
  foldl (λ sum expense, (sum + Num.or0 (ExpenseData.amount expense))%Q)
        0%Q expenses.

(** The bucket pushed for one entry of [expensesByMonth]; the display
    name of the month is left out. *)
Definition trendOf (entry : string * list ExpenseData.t) : Trend.t :=
  let expenses := entry.2 in
  let total := sumAmounts expenses in
  Trend.mk entry.1
           (Num.toFixed 2 total)
           (length expenses)
           (if bool_decide (0 < length expenses)%nat
            then Num.toFixed 2 (total / inject_Z (Z.of_nat (length expenses)))
            else 0%Q)
           None.

(** [a.month.localeCompare(b.month)] on "YYYY-MM" keys. *)
Definition byMonth (a b : Trend.t) : comparison :=
  String.compare (Trend.month a) (Trend.month b).

(** The value stored in [trends[i].growth]. *)
Definition growthOf (previousTotal currentTotal : Q) : Q :=
  if Num.gtb previousTotal 0 then
    Num.toFixed 1 ((currentTotal - previousTotal) / previousTotal * 100)
  else if Num.gtb currentTotal 0 then 100%Q else 0%Q.

(** The body of the [for (let i = 1; ...)] loop. *)
Definition growthStep (trends : list Trend.t) (i : nat) : list Trend.t :=
  match trends !! (i - 1)%nat, trends !! i with
  | Some previous, Some current =>
      <[i := Trend.setGrowth current
               (growthOf (Trend.total previous) (Trend.total current))]> trends
  | _, _ => trends
  end.

Definition calculateTrends (expensesByMonth : gmap string (list ExpenseData.t))
    : list Trend.t :=
  let trends := Num.sort byMonth (trendOf <$> map_to_list expensesByMonth) in
  foldl growthStep trends (seq 1 (length trends - 1)).


(** *** Custom and percentage splits *)

(** [Object.values(obj).reduce((sum, value) => sum + (value || 0), 0)] *)
Definition totalOf (obj : gmap string Q) : Q :=
  foldl (λ sum (kv : string * Q), (sum + kv.2)%Q) 0%Q (map_to_list obj).

(** [calculateCustomSplit]; [fmt digits q] is the text of
    [q.toFixed(digits)] put into the error message. *)
Definition calculateCustomSplit (fmt : nat → Q → string) (amount : Q)
    (splitDetails : gmap string Q) : result (gmap string Q) :=
  if Qle_bool amount 0 then Throw "Valid amount is required"
  else
    let total := totalOf splitDetails in
    let difference := Qabs (total - amount) in
    if Num.gtb difference 0.01 then
      Throw ("Custom splits total (" ++ fmt 2%nat total
             ++ ") doesn't match expense amount (" ++ fmt 2%nat amount ++ ")")%string
    else Ok (Num.toFixed 2 <$> splitDetails).

Definition calculatePercentageSplit (fmt : nat → Q → string) (amount : Q)
    (percentageDetails : gmap string Q) : result (gmap string Q) :=
  if Qle_bool amount 0 then Throw "Valid amount is required"
  else
    let totalPercentage := totalOf percentageDetails in
    let percentageDifference := Qabs (totalPercentage - 100) in
    if Num.gtb percentageDifference 0.1 then
      Throw ("Percentages total (" ++ fmt 1%nat totalPercentage
             ++ "%) should equal 100%")%string
    else
      Ok ((λ percentage, Num.toFixed 2 (amount * percentage / 100)%Q)
            <$> percentageDetails).

(** *** Reports *)

(** The body of [expenses.forEach] in [calculateCategoryBreakdown]: the
    breakdown object and the running total. *)
Definition tally (acc : gmap string Category.t * Q) (expense : ExpenseData.t)
    : gmap string Category.t * Q :=
  let category := Num.orElse (ExpenseData.category expense) "Other" in
  let amount := Num.or0 (ExpenseData.amount expense) in
  let entry := default (Category.mk 0 0 0) (acc.1 !! category) in
  (<[category := Category.mk (Category.amount entry + amount)%Q
                             (Category.percentage entry)
                             (S (Category.count entry))]> acc.1,
   (acc.2 + amount)%Q).

(** The second loop: percentages from the unrounded amounts, then the
    roundings. *)
Definition finishCategory (total : Q) (entry : Category.t) : Category.t :=
  let percentage :=
    if Num.gtb total 0 then (Category.amount entry / total * 100)%Q else 0%Q in
  Category.mk (Num.toFixed 2 (Category.amount entry))
              (Num.toFixed 1 percentage)
              (Category.count entry).

(** [calculateCategoryBreakdown]: the pair of [total] and [breakdown]; a
    [null] entry raises and the [catch] clause answers with zeros. *)
Definition calculateCategoryBreakdown (expenses : list (option ExpenseData.t))
    : Q * gmap string Category.t :=
  match foldl (λ acc entry, a ← acc; expense ← entry; Some (tally a expense))
              (Some (∅, 0%Q)) expenses with
  | Some (breakdown, total) =>
      (Num.toFixed 2 total, finishCategory total <$> breakdown)
  | None => (0%Q, ∅)
  end.

(** [calculateMonthlyAverages]: months without expenses are skipped. *)
Definition monthlyAverageOf (memberCount : nat)
    (entry : string * list ExpenseData.t) : MonthlyAverage.t :=
  let expenses := entry.2 in
  let total := sumAmounts expenses in
  let average :=
    if bool_decide (0 < memberCount)%nat
    then (total / inject_Z (Z.of_nat memberCount))%Q else 0%Q in
  MonthlyAverage.mk entry.1 (Num.toFixed 2 total) (Num.toFixed 2 average)
                    (length expenses).

Definition calculateMonthlyAverages
    (expensesByMonth : gmap string (list ExpenseData.t))
    (members : list Member.t) : list MonthlyAverage.t :=
  Num.sort (λ a b, String.compare (MonthlyAverage.month a)
                                  (MonthlyAverage.month b))
           (monthlyAverageOf (length members)
              <$> filter (λ entry : string * list ExpenseData.t,
                            (0 < length entry.2)%nat)
                         (map_to_list expensesByMonth)).

(** [Math.max(a, b)]. *)
Definition max (a b : Q) : Q := if Num.ltb a b then b else a.

(** [calculateSettlementImpact]; the [balances] argument is not used. *)
Definition calculateSettlementImpact (settlements : list Instr.t) : Impact.t :=
  match settlements with
  | [] => Impact.mk 0 0 0 0 0
  | first :: _ =>
      let totalAmount :=
        foldl (λ sum s, (sum + Instr.amount s)%Q) 0%Q settlements in
      let maxAmount :=
        foldl (λ m s, max m (Instr.amount s)) (Instr.amount first) settlements in
      let minAmount :=
        foldl (λ m s, Num.min m (Instr.amount s)) (Instr.amount first)
              settlements in
      Impact.mk (length settlements)
                (Num.toFixed 2 totalAmount)
                (Num.toFixed 2 (totalAmount
                                / inject_Z (Z.of_nat (length settlements))))
                (Num.toFixed 2 maxAmount)
                (Num.toFixed 2 minAmount)
  end.

(** [validateAndRoundAmount(amount, decimalPlaces)] on a number: a
    negative amount raises inside and the [catch] clause returns 0;
    [Math.round] rounds a tie upwards. *)
Definition validateAndRoundAmount (amount : Q) (decimalPlaces : nat) : Q :=
  if Num.ltb amount 0 then 0%Q
  else
    let multiplier := Num.pow10 decimalPlaces in
    (inject_Z (Qfloor (amount * multiplier + (1 # 2))) / multiplier)%Q.

End Calculate.

(** ** js/calculate.js: the expense module *)

Module Expense.

(** [Object.values(obj).reduce((sum, v) => sum + v, 0)] *)
Definition sumValues (obj : gmap string Q) : Q :=
  foldl (λ sum (kv : string * Q), (sum + kv.2)%Q) 0%Q (map_to_list obj).

(** [Object.keys(d).forEach(id => { if (absent.includes(id)) delete d[id] })] *)
Definition dropAbsent (absentMemberIds : list string)
    (splitDetails : gmap string Q) : gmap string Q :=
  filter (λ kv : string * Q, kv.1 ∉ absentMemberIds) splitDetails.

(** The redistribution of the custom and percentage branches: [whole] is
    the expense amount or 100, [tolerance] 0.01 or 0.1. *)
Definition redistribute (whole tolerance : Q)
    (presentParticipants : list string) (splitDetails : gmap string Q)
    : gmap string Q :=
  let difference := (whole - sumValues splitDetails)%Q in
  if Num.gtb (Qabs difference) tolerance
     && bool_decide (0 < length presentParticipants)%nat
  then
    let adjustment :=
      (difference / inject_Z (Z.of_nat (length presentParticipants)))%Q in
    foldl (λ d memberId, Calculate.addTo d memberId adjustment)
          splitDetails presentParticipants
  else splitDetails.

(** The participants left after the absent ones are filtered out; the
    payer is pushed when nobody is left. *)
Definition presentOf (absentMemberIds : list string) (paidBy : string)
    (originalParticipants : list string) : list string :=
  let presentParticipants :=
    filter (λ memberId, memberId ∉ absentMemberIds) originalParticipants in
  if bool_decide (length presentParticipants = 0)%nat && Num.truthy paidBy
  then presentParticipants ++ [paidBy]
  else presentParticipants.

(** [processAbsentMembers]: the expense object is returned with its
    participant list and share map rewritten.  [window.presenceModule] is
    installed when presence.js loads, so the case of a missing module is
    left out; a missing amount counts as 0. *)
Definition processAbsentMembers (st : Storage.store)
    (expenseData : ExpenseData.t) : ExpenseData.t :=
  match ExpenseData.date expenseData with
  | None => expenseData
  | Some expenseDate =>
      let absentMembers := Presence.getAbsentMembers expenseDate st in
      let absentMemberIds := Member.id <$> absentMembers in
      match ExpenseData.splitBetween expenseData with
      | None => expenseData
      | Some originalParticipants =>
          let paidBy := ExpenseData.paidBy expenseData in
          let amount := Num.or0 (ExpenseData.amount expenseData) in
          let presentParticipants :=
            presentOf absentMemberIds paidBy originalParticipants in
          let splitType := ExpenseData.splitType expenseData in
          let splitDetails :=
            if bool_decide (splitType = "equal") then
              let participantCount := length presentParticipants in
              let share :=
                if bool_decide (0 < participantCount)%nat
                then (amount / inject_Z (Z.of_nat participantCount))%Q
                else 0%Q in
              Some (Calculate.assignAll share presentParticipants)
            else
              match ExpenseData.splitDetails expenseData with
              | None => None
              | Some details =>
                  let details := dropAbsent absentMemberIds details in
                  if bool_decide (splitType = "custom") then
                    Some (redistribute amount 0.01 presentParticipants details)
                  else if bool_decide (splitType = "percentage") then
                    Some (redistribute 100 0.1 presentParticipants details)
                  else Some details
              end in
          ExpenseData.with_split expenseData (Some presentParticipants)
                                 splitDetails
      end
  end.

(** What [saveExpense] writes for the share map:
    [expense.splitDetails || {}]. *)
Definition storedSplitDetails (expenseData : ExpenseData.t)
    : gmap string Q :=
  default ∅ (ExpenseData.splitDetails expenseData).


(** [getAll(monthKey)] for a given (non-empty) month key. *)
Definition getAll (monthKey : string) (st : Storage.store)
    : list ExpenseData.t :=
  Storage.getMonthExpenses monthKey st.

(** The filter of [getByMember]. *)
Definition involves (memberId : string) (expense : ExpenseData.t) : bool :=
  bool_decide (ExpenseData.paidBy expense = memberId)
  || match ExpenseData.splitBetween expense with
     | Some sb => bool_decide (memberId ∈ sb)
     | None => false
     end.

(** [getByMember(memberId, monthKey)]; without a month (none given, or
    the empty string, which is falsy) the expenses of all months are taken
    ([Object.values(getAll()).flat()]).  The months come in the order of
    the map, which may differ from the order of insertion JavaScript
    uses. *)
Definition getByMember (memberId : string) (monthKey : option string)
    (st : Storage.store) : list ExpenseData.t :=
  let allMonths := concat ((map_to_list (Storage.getExpenses st)).*2) in
  let expenses :=
    match monthKey with
    | Some k => if Num.truthy k then getAll k st else allMonths
    | None => allMonths
    end in
  filter (λ expense, Is_true (involves memberId expense)) expenses.

End Expense.

(** ** Concrete inputs *)

Module Examples.

Definition alice : Member.t := Member.mk "alice" "Alice" "#3B82F6" "A".
Definition bob : Member.t := Member.mk "bob" "Bob" "#3B82F6" "B".
Definition carol : Member.t := Member.mk "carol" "Carol" "#3B82F6" "C".
Definition dave : Member.t := Member.mk "dave" "Dave" "#3B82F6" "D".

Definition household : list Member.t := [alice; bob; carol].

(** Scenario 1: 90 paid by Alice, split equally among the three. *)
Definition shares30 : gmap string Q :=
  {[ "alice" := 30%Q; "bob" := 30%Q; "carol" := 30%Q ]}.

Definition rent : ExpenseData.t :=
  ExpenseData.mk "e1" "Rent" (Some 90%Q) "alice" "equal"
                 (Some ["alice"; "bob"; "carol"]) (Some shares30)
                 "Other" (Some 0%Z) "".

Definition claimedBalances : gmap string Q :=
  {[ "alice" := 60%Q; "bob" := (-30)%Q; "carol" := (-30)%Q ]}.

Definition computedBalances : gmap string Q :=
  {[ "alice" := 90%Q; "bob" := (-30)%Q; "carol" := (-30)%Q ]}.

(** The instruction by which [debtor] pays [amount] to [creditor]. *)
Definition pays (debtor creditor : Member.t) (amount : Q) : Instr.t :=
  Calculate.mkInstr (Calculate.mkParty debtor 0) (Calculate.mkParty creditor 0)
                    amount.

(** A creditor whose remainder after the first settlement is exactly 0.01
    while another debtor is waiting. *)
Definition stuckBalances : gmap string Q :=
  {[ "alice" := 0.023%Q; "bob" := (-0.013)%Q; "carol" := (-0.013)%Q ]}.

(** A store where Bob is referenced by one absence record and by no
    expense. *)
Definition bobAway : Absence.t :=
  Absence.mk "r1" "bob" 1 (Some 5%Z) "Travel" 0 0.

Definition absenceOnly : Storage.store :=
  Storage.mkStore [alice; bob] ∅ [bobAway] [].

(** A store where Alice paid for an expense. *)
Definition withRent : Storage.store :=
  Storage.mkStore household {[ "1970-01" := [rent] ]} [bobAway] [].

(** The record "r1" re-saved with the same dates for another member. *)
Definition reassigned : Absence.data :=
  Absence.mkData (Some "r1") "alice" 1 (Some 5%Z) "Travel".

(** The record "r1" re-saved unchanged. *)
Definition unchanged : Absence.data :=
  Absence.mkData (Some "r1") "bob" 1 (Some 5%Z) "Travel".

Definition noUpdates : Absence.updates :=
  Absence.mkUpdates None None None None.

(** An empty January followed by a February with one expense of 50. *)
Definition groceries : ExpenseData.t :=
  ExpenseData.mk "e2" "Groceries" (Some 50%Q) "bob" "equal"
                 (Some ["alice"; "bob"]) None "Food" (Some 0%Z) "".

Definition twoMonths : gmap string (list ExpenseData.t) :=
  {[ "2024-01" := []; "2024-02" := [groceries] ]}.

(** Scenario 4: a dinner on day 3, inside Bob's absence, split equally
    among the three. *)
Definition dinner : ExpenseData.t :=
  ExpenseData.mk "e3" "Dinner" (Some 60%Q) "alice" "equal"
                 (Some ["alice"; "bob"; "carol"]) None "Food" (Some 3%Z) "".

(** Balances that sum to zero, Carol and Dave being within 0.01 of it. *)
Definition smallDebts : gmap string Q :=
  {[ "alice" := 0.04%Q; "bob" := (-0.02)%Q; "carol" := (-0.01)%Q;
     "dave" := (-0.01)%Q ]}.

Definition four : list Member.t := [alice; bob; carol; dave].

(** A taxi on day 3 that Bob paid for himself while away. *)
Definition taxi : ExpenseData.t :=
  ExpenseData.mk "e4" "Taxi" (Some 40%Q) "bob" "equal"
                 (Some ["bob"]) None "Transport" (Some 3%Z) "".

End Examples.

(** ** Vocabulary of the statements *)

Module Spec.

(** An expense of the store names the member as payer or participant. *)
Definition referencedByExpense (memberId : string) (st : Storage.store)
    : Prop :=
  ∃ month monthExpenses expense,
    Storage.expenses st !! month = Some monthExpenses
    ∧ expense ∈ monthExpenses
    ∧ (ExpenseData.paidBy expense = memberId
       ∨ ∃ sb, ExpenseData.splitBetween expense = Some sb ∧ memberId ∈ sb).

(** The range [newStart]..[newEnd] meets the stored range of [r]
    (a stored record without end date lasts one day). *)
Definition overlapsStored (newStart newEnd : Z) (r : Absence.t) : Prop :=
  (Absence.startDate r ≤ newEnd)%Z
  ∧ (newStart ≤ default (Absence.startDate r) (Absence.endDate r))%Z.

(** The end date [savePresenceRecord] gives the incoming record. *)
Definition endOf (data : Absence.data) : Z :=
  default (Absence.d_startDate data) (Absence.d_endDate data).

(** The ids [processAbsentMembers] filters out for an expense dated [d]. *)
Definition absentIds (d : Z) (st : Storage.store) : list string :=
  Member.id <$> Presence.getAbsentMembers d st.

(** The inclusive range of the record holds the date. *)
Definition inRange (d : Z) (record : Absence.t) : Prop :=
  (Absence.startDate record ≤ d)%Z
  ∧ (d ≤ default (Absence.startDate record) (Absence.endDate record))%Z.

(** [balances[id] || 0] *)
Definition balanceOf (b : gmap string Q) (k : string) : Q := Num.or0 (b !! k).

(** Carrying out one instruction: the payer's debt and the receiver's
    credit both shrink by the amount. *)
Definition applyInstr (b : gmap string Q) (ins : Instr.t) : gmap string Q :=
  Calculate.addTo (Calculate.addTo b (Instr.from ins) (Instr.amount ins))
                  (Instr.to ins) (- Instr.amount ins)%Q.

Definition applyAll (b : gmap string Q) (l : list Instr.t) : gmap string Q :=
  foldl applyInstr b l.

(** The member ends within 0.01 of zero. *)
Definition settled (b : gmap string Q) (member : Member.t) : Prop :=
  (Qabs (balanceOf b (Member.id member)) <= 0.01)%Q.

(** A whole number of hundredths. *)
Definition wholeCents (q : Q) : Prop := ∃ z : Z, (q * 100 == inject_Z z)%Q.

(** The creditors and debtors the planner starts from, in member order. *)
Definition isCreditor (b : gmap string Q) (member : Member.t) : bool :=
  Num.gtb (balanceOf b (Member.id member)) 0.01.

Definition isDebtor (b : gmap string Q) (member : Member.t) : bool :=
  Num.ltb (balanceOf b (Member.id member)) (-0.01).

Definition creditorsOf (b : gmap string Q) (members : list Member.t)
    : list Party.t :=
  (λ member, Calculate.mkParty member (balanceOf b (Member.id member)))
    <$> filter (λ member, Is_true (isCreditor b member)) members.

Definition debtorsOf (b : gmap string Q) (members : list Member.t)
    : list Party.t :=
  (λ member, Calculate.mkParty member (- balanceOf b (Member.id member))%Q)
    <$> filter (λ member, Is_true (isDebtor b member)) members.

(** The sum of the amounts of a creditor or debtor list. *)
Definition total (l : list Party.t) : Q :=
  foldr (λ p acc, (Party.amount p + acc)%Q) 0%Q l.

Definition nonnegCents (p : Party.t) : Prop :=
  wholeCents (Party.amount p) ∧ (0 <= Party.amount p)%Q.

(** What every iteration of the settlement loop keeps true, for balances
    [b] in whole cents whose creditor ids are [cids] and debtor ids
    [dids]. *)
Record plannerInv (b : gmap string Q) (cids dids : list string)
    (s : Calculate.planner) : Prop := mkInv {
  inv_cids : Party.id <$> Calculate.creditors s = cids;
  inv_dids : Party.id <$> Calculate.debtors s = dids;
  inv_camt : Forall nonnegCents (Calculate.creditors s);
  inv_damt : Forall nonnegCents (Calculate.debtors s);
  inv_cdone : ∀ k p, (k < Calculate.i s)%nat →
                Calculate.creditors s !! k = Some p →
                (Party.amount p < 0.01)%Q;
  inv_ddone : ∀ k p, (k < Calculate.j s)%nat →
                Calculate.debtors s !! k = Some p →
                (Party.amount p < 0.01)%Q;
  inv_clink : ∀ p, p ∈ Calculate.creditors s →
                (balanceOf (applyAll b (Calculate.settlements s)) (Party.id p)
                 == Party.amount p)%Q;
  inv_dlink : ∀ p, p ∈ Calculate.debtors s →
                (balanceOf (applyAll b (Calculate.settlements s)) (Party.id p)
                 == - Party.amount p)%Q;
  inv_other : ∀ k, k ∉ cids → k ∉ dids →
                (balanceOf (applyAll b (Calculate.settlements s)) k
                 == balanceOf b k)%Q;
  inv_total : (total (Calculate.creditors s) == total (Calculate.debtors s))%Q
}.

(** The sum of the values of a list of entries. *)
Definition sumList (l : list (string * Q)) : Q :=
  foldr (λ kv acc, (kv.2 + acc)%Q) 0%Q l.

(** The payer's own entry in the share map of an expense (0 without one)
    and the sum of all entries. *)
Definition ownShare (e : ExpenseData.t) : Q :=
  balanceOf (default ∅ (ExpenseData.splitDetails e)) (ExpenseData.paidBy e).

Definition shareTotal (e : ExpenseData.t) : Q :=
  Expense.sumValues (default ∅ (ExpenseData.splitDetails e)).

(** What an expense with a share map adds to the sum of all balances: the
    amount credited to the payer less the shares charged to the others. *)
Definition surplus (e : ExpenseData.t) : Q :=
  (Num.or0 (ExpenseData.amount e) - (shareTotal e - ownShare e))%Q.

Definition sumOver (f : ExpenseData.t → Q) (l : list ExpenseData.t) : Q :=
  foldr (λ e acc, (f e + acc)%Q) 0%Q l.


(** What [calculateBalances] charges [k] for an expense paid by someone
    else: the entry of [k] in the share map or, without a share map, the
    equal share once for every occurrence of [k] in [splitBetween]. *)
Definition owedBy (e : ExpenseData.t) (k : string) : Q :=
  match ExpenseData.splitDetails e with
  | Some sd => balanceOf sd k
  | None =>
      match ExpenseData.splitBetween e with
      | Some (_ :: _ as l) =>
          (Num.or0 (ExpenseData.amount e) / inject_Z (Z.of_nat (length l))
           * inject_Z (Z.of_nat (length (filter (λ p, p = k) l))))%Q
      | _ => 0%Q
      end
  end.

(** What an expense adds to the balance of [k]: the whole amount for the
    payer, minus the share for everybody else. *)
Definition contribution (k : string) (e : ExpenseData.t) : Q :=
  if decide (ExpenseData.paidBy e = k) then Num.or0 (ExpenseData.amount e)
  else (- owedBy e k)%Q.

(** The entries of the two lists the pointers of the settlement loop have
    not passed yet. *)
Definition remaining (s : Calculate.planner) : nat :=
  (length (Calculate.creditors s) - Calculate.i s)
  + (length (Calculate.debtors s) - Calculate.j s).

(** The pointers stay within the lists, and every instruction emitted so
    far has moved one of them on; the last move of both at once counts
    for one instruction. *)
Definition paced (s : Calculate.planner) : Prop :=
  (Calculate.i s ≤ length (Calculate.creditors s))%nat
  ∧ (Calculate.j s ≤ length (Calculate.debtors s))%nat
  ∧ (length (Calculate.settlements s)
     ≤ Calculate.i s + Calculate.j s
       - (if bool_decide (Calculate.i s = length (Calculate.creditors s)
                          ∧ Calculate.j s = length (Calculate.debtors s))
          then 1 else 0))%nat.

(** An instruction goes from a member who owes more than 0.01 to a member
    who is owed more than 0.01, and is worth at least 0.01. *)
Definition wellFormed (b : gmap string Q) (members : list Member.t)
    (ins : Instr.t) : Prop :=
  (0.01 <= Instr.amount ins)%Q
  ∧ wholeCents (Instr.amount ins)
  ∧ Instr.from ins ≠ Instr.to ins
  ∧ (∃ debtor, debtor ∈ members ∧ Member.id debtor = Instr.from ins
               ∧ (balanceOf b (Instr.from ins) < -0.01)%Q)
  ∧ (∃ creditor, creditor ∈ members ∧ Member.id creditor = Instr.to ins
                 ∧ (0.01 < balanceOf b (Instr.to ins))%Q).

(** No two stored records of one member have ranges that meet. *)
Definition absencesDisjoint (records : list Absence.t) : Prop :=
  ∀ i j r1 r2, i ≠ j →
    records !! i = Some r1 → records !! j = Some r2 →
    Absence.memberId r1 = Absence.memberId r2 →
    ¬ overlapsStored (Absence.startDate r1)
        (default (Absence.startDate r1) (Absence.endDate r1)) r2.

(** The record [savePresenceRecord] builds from its argument. *)
Definition recordOf (fresh : string) (now : Z) (data : Absence.data)
    : Absence.t :=
  Absence.mk (Storage.idOr (Absence.d_id data) fresh)
             (Absence.d_memberId data)
             (Absence.d_startDate data)
             (Some (endOf data))
             (Absence.d_reason data) now now.

(** The fields [saveExpense] insists on. *)
Definition complete (e : ExpenseData.t) : Prop :=
  Num.truthy (ExpenseData.title e) = true
  ∧ (∃ a, ExpenseData.amount e = Some a ∧ ¬ (a == 0)%Q)
  ∧ Num.truthy (ExpenseData.paidBy e) = true
  ∧ is_Some (ExpenseData.splitBetween e).

(** The expenses counted under category [c]; an expense without a
    category counts as "Other". *)
Definition inCategory (c : string) (expenses : list ExpenseData.t)
    : list ExpenseData.t :=
  filter (λ e, Num.orElse (ExpenseData.category e) "Other" = c) expenses.

(** Every entry is related to every later one. *)
Definition ordered {A : Type} (R : A → A → Prop) (l : list A) : Prop :=
  ∀ i j a b, (i < j)%nat → l !! i = Some a → l !! j = Some b → R a b.

(** What [sort] with a comparison of string keys guarantees of two
    entries in a row. *)
Definition keyLe {A : Type} (key : A → string) (a b : A) : Prop :=
  String.compare (key a) (key b) ≠ Gt.

End Spec.

(** * Properties *)

(** ** Numbers *)

Section NumFacts.
Local Open Scope Q_scope.

Lemma ltb_lt (a b : Q) : Num.ltb a b = true ↔ a < b.
Proof.
  unfold Num.ltb. rewrite Qlt_alt. destruct (a ?= b); split; congruence.
Qed.

Lemma ltb_ge (a b : Q) : Num.ltb a b = false ↔ b <= a.
Proof.
  rewrite <- not_true_iff_false, ltb_lt. split.
  - apply Qnot_lt_le.
  - intros H1 H2. apply (Qlt_not_le _ _ H2 H1).
Qed.

Lemma gtb_gt (a b : Q) : Num.gtb a b = true ↔ b < a.
Proof. apply ltb_lt. Qed.

Lemma gtb_le (a b : Q) : Num.gtb a b = false ↔ a <= b.
Proof. apply ltb_ge. Qed.

Lemma min_cases (a b : Q) :
  (b < a ∧ Num.min a b = b) ∨ (a <= b ∧ Num.min a b = a).
Proof.
  unfold Num.min. destruct (Num.ltb b a) eqn:E.
  - left. by apply ltb_lt in E.
  - right. by apply ltb_ge in E.
Qed.
End NumFacts.

(** ** The settlement loop *)

Section LoopFacts.
Import Calculate.

Lemma loop_more_fuel (fuel extra : nat) (s r : planner) :
  loop fuel s = Some r → loop (fuel + extra) s = Some r.
Proof.
  revert s. induction fuel as [|fuel IH]; intros s; simpl.
  - destruct (running s) eqn:E; [discriminate|].
    intros H. destruct extra; simpl; by rewrite E.
  - destruct (running s); [apply IH | done].
Qed.

Lemma loop_fuel_irrelevant (f1 f2 : nat) (s r1 r2 : planner) :
  loop f1 s = Some r1 → loop f2 s = Some r2 → r1 = r2.
Proof.
  intros H1 H2.
  apply (loop_more_fuel _ f2) in H1. apply (loop_more_fuel _ f1) in H2.
  rewrite (Nat.add_comm f2 f1) in H2. congruence.
Qed.

(** A state the body maps to itself while the condition holds is never
    left. *)
Lemma loop_stuck (s : planner) :
  running s = true → step s = s → ∀ fuel, loop fuel s = None.
Proof.
  intros Hrun Hstep fuel. induction fuel as [|fuel IH]; simpl.
  - by rewrite Hrun.
  - by rewrite Hrun, Hstep.
Qed.

Lemma settle_balances (s : planner) (c d : Party.t) :
  balances (settle s c d) = balances s.
Proof. unfold settle. by destruct (Num.gtb _ _). Qed.

Lemma step_balances (s : planner) : balances (step s) = balances s.
Proof.
  unfold step. destruct (creditors s !! i s); [|done].
  destruct (debtors s !! j s); [|done]. simpl. apply settle_balances.
Qed.

Lemma loop_balances (fuel : nat) (s r : planner) :
  loop fuel s = Some r → balances r = balances s.
Proof.
  revert s. induction fuel as [|fuel IH]; intros s; simpl.
  - destruct (running s); [discriminate|]. by intros [= <-].
  - destruct (running s); [|by intros [= <-]].
    intros H. apply IH in H. by rewrite H, step_balances.
Qed.
End LoopFacts.

(** ** Scenario 1 and the conservation law *)

Section Scenario1.
Import Calculate Examples.

(** C2. Scenario 1 on the code: the equal split of 90 is 30 each and the
    planner, given the balances the scenario names, answers Bob→Alice 30
    and Carol→Alice 30; but [calculateBalances] credits Alice with the
    full 90, not with 60. *)
Theorem scenario1_evaluation :
  calculateEqualSplit 90 ["alice"; "bob"; "carol"] = Ok shares30
  ∧ calculateBalances [Some rent] household = computedBalances
  ∧ calculateBalances [Some rent] household ≠ claimedBalances
  ∧ ∀ extra, calculateSettlements (2 + extra) claimedBalances household
             = Some [pays bob alice 30; pays carol alice 30].
Proof.
  split; [vm_compute; reflexivity|]. split; [vm_compute; reflexivity|].
  split.
  { intros H. apply (f_equal (λ m : gmap string Q, m !! "alice")) in H.
    vm_compute in H. discriminate. }
  intros extra. unfold calculateSettlements, run.
  by rewrite (loop_more_fuel 2 extra _
               (mkPlanner claimedBalances
                  [mkParty alice 0] [mkParty bob 0; mkParty carol 0] 1 2
                  [pays bob alice 30; pays carol alice 30]))
    by (by vm_compute).
Qed.

(** The planner run on the balances the code computes for scenario 1
    emits the same two instructions, after which Alice is still shown as
    owed 30. *)
Lemma scenario1_pipeline :
  calculateSettlements 2 (calculateBalances [Some rent] household) household
  = Some [pays bob alice 30; pays carol alice 30]
  ∧ Spec.balanceOf
      (Spec.applyAll (calculateBalances [Some rent] household)
                     [pays bob alice 30; pays carol alice 30]) "alice"
    = 30%Q.
Proof. split; vm_compute; reflexivity. Qed.

(** C1. The balances of scenario 1 sum to 30, far from the 0.01 per
    member the conservation law allows. *)
Theorem scenario1_not_conserved :
  Expense.sumValues (calculateBalances [Some rent] household) = 30%Q
  ∧ ¬ (Qabs (Expense.sumValues (calculateBalances [Some rent] household))
       <= 0.01 * inject_Z (Z.of_nat (length household)))%Q.
Proof. split; by vm_compute. Qed.
End Scenario1.

(** ** Termination and determinism of the planner *)

Section Planner.
Import Calculate Examples.


(** In exact arithmetic balances in whole cents get stuck the same way:
    0.03 against 0.02 and 0.02 leaves a remainder of 0.01. *)
Lemma calculateSettlements_stuck_whole_cents :
  ∀ fuel,
    calculateSettlements fuel
      {[ "alice" := 0.03%Q; "bob" := (-0.02)%Q; "carol" := (-0.02)%Q ]}
      household = None.
Proof.
  intros fuel. unfold calculateSettlements, run.
  match goal with |- context [loop fuel ?s] => set (s0 := s) end.
  assert (Hrun0 : running s0 = true) by (by vm_compute).
  assert (Hrun1 : running (step s0) = true) by (by vm_compute).
  assert (Hfix : step (step s0) = step s0) by (by vm_compute).
  destruct fuel as [|fuel]; simpl; rewrite Hrun0; [done|].
  by rewrite (loop_stuck _ Hrun1 Hfix).
Qed.


End Planner.

(** ** Deleting a member *)

Section DeleteMember.
Import Storage Examples Spec.

Lemma refersTo_spec (memberId : string) (e : ExpenseData.t) :
  refersTo memberId e = true
  ↔ ExpenseData.paidBy e = memberId
    ∨ ∃ sb, ExpenseData.splitBetween e = Some sb ∧ memberId ∈ sb.
Proof.
  unfold refersTo. rewrite orb_true_iff, bool_decide_eq_true.
  destruct (ExpenseData.splitBetween e) as [sb|].
  - rewrite bool_decide_eq_true. split; intros [H|H]; eauto.
    destruct H as (sb' & [= <-] & H). by right.
  - split; intros [H|H]; eauto; [done|]. by destruct H as (? & [=] & _).
Qed.

Lemma hasExpenses_spec (memberId : string) (st : store) :
  hasExpenses memberId st = true ↔ referencedByExpense memberId st.
Proof.
  unfold hasExpenses, referencedByExpense, getExpenses.
  rewrite existsb_exists. split.
  - intros ([month es] & Hin & Hex). simpl in Hex.
    apply existsb_exists in Hex as (e & He & Href).
    exists month, es, e. split; [|split].
    + by apply elem_of_map_to_list, list_elem_of_In.
    + by apply list_elem_of_In.
    + by apply refersTo_spec.
  - intros (month & es & e & Hm & He & Href).
    exists (month, es). split.
    + by apply list_elem_of_In, elem_of_map_to_list.
    + simpl. apply existsb_exists. exists e. split.
      * by apply list_elem_of_In.
      * by apply refersTo_spec.
Qed.

(** C6, as stated, fails: Bob is referenced by an absence record, and
    deleting him succeeds, removing him and the record. *)
Lemma deleteMember_absence_only :
  bobAway ∈ presence absenceOnly
  ∧ Absence.memberId bobAway = "bob"
  ∧ deleteMember "bob" absenceOnly
    = (Ok true, mkStore [alice] ∅ [] [])
  ∧ mkStore [alice] ∅ [] [] ≠ absenceOnly.
Proof.
  split; [by apply list_elem_of_here|]. split; [done|].
  split; [by vm_compute|]. intros [=].
Qed.

(** C6, amended. A member named by some expense as payer or in
    [splitBetween] cannot be deleted: the call throws and the store is
    left as it was.  A member no expense names is deleted, together with
    every absence record of that member; the expenses stay. *)
Theorem deleteMember_referential_integrity (memberId : string) (st : store) :
  (referencedByExpense memberId st →
     deleteMember memberId st
     = (Throw "Cannot delete member with existing expenses", st))
  ∧ (¬ referencedByExpense memberId st →
     deleteMember memberId st
     = (Ok true,
        mkStore (filter (λ m, Member.id m ≠ memberId) (members st))
                (expenses st)
                (filter (λ r, Absence.memberId r ≠ memberId) (presence st))
                (lockedMonths st))).
Proof.
  unfold deleteMember. split; intros H.
  - apply hasExpenses_spec in H. by rewrite H.
  - destruct (hasExpenses memberId st) eqn:E; [|done].
    by apply hasExpenses_spec in E.
Qed.

Lemma deleteMember_referential_integrity_witness :
  referencedByExpense "alice" withRent
  ∧ deleteMember "alice" withRent
    = (Throw "Cannot delete member with existing expenses", withRent)
  ∧ ¬ referencedByExpense "bob" absenceOnly
  ∧ deleteMember "bob" absenceOnly = (Ok true, mkStore [alice] ∅ [] []).
Proof.
  assert (Hyes : referencedByExpense "alice" withRent).
  { exists "1970-01", [rent], rent.
    split; [by vm_compute|]. split; [apply list_elem_of_here|by left]. }
  assert (Hno : ¬ referencedByExpense "bob" absenceOnly).
  { intros (month & es & e & Hm & _). by vm_compute in Hm. }
  split; [exact Hyes|]. split; [|split; [exact Hno|]].
  - exact (proj1 (deleteMember_referential_integrity "alice" withRent) Hyes).
  - exact (proj2 (deleteMember_referential_integrity "bob" absenceOnly) Hno).
Defined.
End DeleteMember.

(** ** Saving an absence record over itself *)

Section SavePresence.
Import Storage Presence Examples Spec.

Lemma some_overlap_throws (fresh : string) (now : Z) (st : store)
    (r : Absence.t) (data : Absence.data) :
  r ∈ presence st →
  Absence.d_memberId data = Absence.memberId r →
  overlapsStored (Absence.d_startDate data) (endOf data) r →
  savePresenceRecord fresh now data st
  = (Throw "Overlapping absence records found", st).
Proof.
  intros Hin Hmem [Hlo Hhi]. unfold savePresenceRecord, getPresenceRecords.
  match goal with |- context [filter ?P (presence st)] =>
    assert (Hf : r ∈ filter P (presence st)) end.
  { apply list_elem_of_filter. split; [|done]. simpl. split; [done|].
    unfold endOf in Hlo. intros Hor. apply Is_true_true, orb_true_iff in Hor.
    destruct Hor as [H|H].
    - apply bool_decide_eq_true in H. lia.
    - unfold dateGt in H. destruct (Absence.endDate r); [|done].
      apply bool_decide_eq_true in H. simpl in Hhi. lia. }
  rewrite bool_decide_eq_true_2; [done|].
  destruct (filter _ _); [by apply elem_of_nil in Hf | simpl; lia].
Qed.

Lemma getById_Some (recordId : string) (st : store) (record : Absence.t) :
  getById recordId st = Some record →
  record ∈ presence st ∧ Absence.id record = recordId.
Proof.
  unfold getById, getAll, getPresenceRecords. intros H.
  destruct (list_find _ _) as [[k r]|] eqn:E; [|discriminate].
  injection H as ->. apply list_find_Some in E as (Hk & Hid & _).
  split; [by eapply list_elem_of_lookup_2 | done].
Qed.

(** C10, as stated, fails: the record "r1" re-saved under its own id and
    dates for another member is accepted and replaces the stored one. *)
Lemma savePresenceRecord_other_member_accepted :
  bobAway ∈ presence absenceOnly
  ∧ Absence.d_id reassigned = Some (Absence.id bobAway)
  ∧ overlapsStored (Absence.d_startDate reassigned) (endOf reassigned) bobAway
  ∧ savePresenceRecord "fresh" 9 reassigned absenceOnly
    = (Ok (Absence.mk "r1" "alice" 1 (Some 5%Z) "Travel" 9 9),
       mkStore [alice; bob] ∅
               [Absence.mk "r1" "alice" 1 (Some 5%Z) "Travel" 9 9] []).
Proof.
  split; [by apply list_elem_of_here|]. split; [done|].
  split; [by vm_compute|]. by vm_compute.
Qed.

(** C10, amended. A call of [savePresenceRecord] that keeps the id and
    the member of a stored record and whose date range meets the stored
    range throws the overlap error and writes nothing; so does
    [updateAbsence] when the updates keep the member and the resulting
    range meets the stored one, unchanged dates included. *)
Theorem savePresenceRecord_rejects_own_overlap
    (fresh : string) (now : Z) (st : store) :
  (∀ (r : Absence.t) (data : Absence.data),
     r ∈ presence st →
     Absence.d_id data = Some (Absence.id r) →
     Absence.d_memberId data = Absence.memberId r →
     overlapsStored (Absence.d_startDate data) (endOf data) r →
     savePresenceRecord fresh now data st
     = (Throw "Overlapping absence records found", st))
  ∧ (∀ (recordId : string) (updates : Absence.updates) (record : Absence.t),
       getById recordId st = Some record →
       default (Absence.memberId record) (Absence.u_memberId updates)
       = Absence.memberId record →
       let newStart :=
         default (Absence.startDate record) (Absence.u_startDate updates) in
       let newEnd :=
         default newStart
                 (default (Absence.endDate record) (Absence.u_endDate updates)) in
       overlapsStored newStart newEnd record →
       updateAbsence fresh now recordId updates st
       = (Throw "Overlapping absence records found", st)).
Proof.
  split.
  - intros r data Hin _ Hmem Hov. by eapply some_overlap_throws.
  - intros recordId updates record Hget Hmem newStart newEnd Hov.
    unfold updateAbsence. rewrite Hget.
    apply getById_Some in Hget as [Hin _].
    by eapply some_overlap_throws.
Qed.

Lemma savePresenceRecord_rejects_own_overlap_witness :
  savePresenceRecord "fresh" 9 unchanged absenceOnly
  = (Throw "Overlapping absence records found", absenceOnly)
  ∧ updateAbsence "fresh" 9 "r1" noUpdates absenceOnly
    = (Throw "Overlapping absence records found", absenceOnly).
Proof.
  split.
  - apply (proj1 (savePresenceRecord_rejects_own_overlap "fresh" 9 absenceOnly)
             bobAway unchanged).
    + apply list_elem_of_here.
    + reflexivity.
    + reflexivity.
    + by vm_compute.
  - apply (proj2 (savePresenceRecord_rejects_own_overlap "fresh" 9 absenceOnly)
             "r1" noUpdates bobAway).
    + reflexivity.
    + reflexivity.
    + by vm_compute.
Defined.
End SavePresence.

(** ** A record that makes the aggregation raise *)

Section FaultTolerance.
Import Calculate Examples.

Lemma aggregate_step_None (members : list Member.t)
    (expenses : list (option ExpenseData.t)) :
  foldl (λ acc entry,
           balances ← acc; expense ← entry;
           Some (applyExpense balances expense))
        None expenses = None.
Proof. by induction expenses. Qed.

Lemma aggregate_null (expenses : list (option ExpenseData.t))
    (members : list Member.t) :
  None ∈ expenses → aggregate expenses members = None.
Proof.
  unfold aggregate. generalize (Some (initBalances members)).
  induction expenses as [|entry expenses IH]; intros acc Hin.
  - by apply elem_of_nil in Hin.
  - simpl. apply elem_of_cons in Hin as [<-|Hin].
    + destruct acc; simpl; by apply aggregate_step_None.
    + by apply IH.
Qed.

(** C7, as stated, fails: with a null record after the rent expense the
    result is the empty object, not the balances of the rent expense. *)
Lemma calculateBalances_null_aborts :
  calculateBalances [Some rent; None] household = ∅
  ∧ calculateBalances [Some rent] household = computedBalances
  ∧ calculateBalances [Some rent; None] household
    ≠ calculateBalances [Some rent] household.
Proof.
  split; [vm_compute; reflexivity|]. split; [vm_compute; reflexivity|].
  intros H. apply (f_equal (λ m : gmap string Q, m !! "alice")) in H.
  vm_compute in H. discriminate.
Qed.

(** C7, amended. [calculateBalances] always returns, but a record whose
    processing raises makes it give up the whole aggregation: whatever
    the other expenses are, the result is the empty balance map. *)
Theorem calculateBalances_all_or_nothing
    (expenses : list (option ExpenseData.t)) (members : list Member.t) :
  None ∈ expenses → calculateBalances expenses members = ∅.
Proof.
  intros Hin. unfold calculateBalances. by rewrite aggregate_null.
Qed.

Lemma calculateBalances_all_or_nothing_witness :
  None ∈ [Some rent; None; Some groceries]
  ∧ calculateBalances [Some rent; None; Some groceries] household = ∅.
Proof.
  assert (Hin : None ∈ [Some rent; None; Some groceries])
    by apply list_elem_of_further, list_elem_of_here.
  split; [exact Hin|].
  exact (calculateBalances_all_or_nothing _ household Hin).
Defined.
End FaultTolerance.

(** ** Month-over-month growth *)

Section Trends.
Import Calculate Examples.
Local Open Scope Q_scope.

(** The growth loop after its first [n] iterations. *)
Local Abbreviation growthLoop trends n := (foldl growthStep trends (seq 1 n)).

Lemma growthLoop_S (trends : list Trend.t) (n : nat) :
  growthLoop trends (S n) = growthStep (growthLoop trends n) (S n).
Proof. by rewrite seq_S, foldl_app. Qed.

Lemma growthStep_at (trends : list Trend.t) (k : nat)
    (previous current : Trend.t) :
  trends !! k = Some previous → trends !! S k = Some current →
  growthStep trends (S k)
  = <[S k := Trend.setGrowth current
               (growthOf (Trend.total previous) (Trend.total current))]> trends.
Proof.
  intros Hp Hc. unfold growthStep.
  replace (S k - 1)%nat with k by lia. by rewrite Hp, Hc.
Qed.

Lemma growthStep_length (trends : list Trend.t) (k : nat) :
  length (growthStep trends k) = length trends.
Proof.
  unfold growthStep. destruct (trends !! (k - 1)%nat); [|done].
  destruct (trends !! k); [|done]. apply length_insert.
Qed.

Lemma growthStep_other (trends : list Trend.t) (k n : nat) :
  n ≠ k → growthStep trends k !! n = trends !! n.
Proof.
  intros Hne. unfold growthStep. destruct (trends !! (k - 1)%nat); [|done].
  destruct (trends !! k); [|done]. by apply list_lookup_insert_ne.
Qed.

Lemma growthStep_total (trends : list Trend.t) (k n : nat) :
  Trend.total <$> growthStep trends k !! n = Trend.total <$> trends !! n.
Proof.
  destruct (decide (n = k)) as [->|Hne]; [|by rewrite growthStep_other].
  unfold growthStep. destruct (trends !! (k - 1)%nat); [|done].
  destruct (trends !! k) as [current|] eqn:E.
  - by rewrite list_lookup_insert_eq by (by eapply lookup_lt_Some).
  - by rewrite E.
Qed.

(** What the loop has established after [n] iterations: totals are never
    touched, entries beyond [n] and the first one are as they were, and
    entry [k] in [1..n] has the growth computed from the two totals. *)
Lemma growthLoop_inv (trends : list Trend.t) (n : nat) :
  (∀ k, Trend.total <$> growthLoop trends n !! k = Trend.total <$> trends !! k)
  ∧ (∀ k, (k = 0 ∨ n < k)%nat → growthLoop trends n !! k = trends !! k)
  ∧ (∀ k previous current, (k < n)%nat →
       trends !! k = Some previous → trends !! S k = Some current →
       growthLoop trends n !! S k
       = Some (Trend.setGrowth current
                 (growthOf (Trend.total previous) (Trend.total current)))).
Proof.
  induction n as [|n (IHt & IHu & IHg)].
  - split; [done|]. split; [done|]. intros; lia.
  - rewrite growthLoop_S. split; [|split].
    + intros k. by rewrite growthStep_total.
    + intros k Hk. rewrite growthStep_other by lia. apply IHu. lia.
    + intros k previous current Hk Hp Hc.
      destruct (decide (k = n)) as [->|Hne].
      * pose proof (IHt n) as Ht. rewrite Hp in Ht.
        destruct (growthLoop trends n !! n) as [previous'|] eqn:Ep;
          [|discriminate].
        injection Ht as Ht.
        assert (Ec : growthLoop trends n !! S n = Some current)
          by (rewrite IHu by lia; done).
        rewrite (growthStep_at _ n previous' current Ep Ec), Ht.
        apply list_lookup_insert_eq. by eapply lookup_lt_Some.
      * rewrite growthStep_other by lia. apply IHg; [lia|done..].
Qed.

Lemma calculateTrends_growthOf (m : gmap string (list ExpenseData.t))
    (k : nat) (previous current : Trend.t) :
  calculateTrends m !! k = Some previous →
  calculateTrends m !! S k = Some current →
  Trend.growth current
  = Some (growthOf (Trend.total previous) (Trend.total current)).
Proof.
  unfold calculateTrends.
  set (trends := Num.sort byMonth (trendOf <$> map_to_list m)).
  intros Hp Hc.
  destruct (growthLoop_inv trends (length trends - 1)) as (Ht & _ & Hg).
  assert (Hlen : (S k < length trends)%nat).
  { apply lookup_lt_Some in Hc.
    assert (Hl : ∀ n, length (growthLoop trends n) = length trends).
    { induction n as [|n IH]; [done|].
      by rewrite growthLoop_S, growthStep_length. }
    by rewrite Hl in Hc. }
  destruct (trends !! k) as [p0|] eqn:Ep0;
    [|apply lookup_ge_None in Ep0; lia].
  destruct (trends !! S k) as [c0|] eqn:Ec0;
    [|apply lookup_ge_None in Ec0; lia].
  pose proof (Ht k) as Htp. rewrite Hp, Ep0 in Htp. injection Htp as Htp.
  rewrite (Hg k p0 c0) in Hc by (done || lia).
  injection Hc as <-. simpl. by rewrite Htp.
Qed.



End Trends.

(** ** Absent members and the share map *)

Section AbsenceFilter.
Import Storage Presence Expense Examples Spec.

Lemma covers_spec (memberId : string) (d : Z) (record : Absence.t) :
  covers memberId d record = true
  ↔ Absence.memberId record = memberId ∧ inRange d record.
Proof.
  unfold covers, inRange. case_bool_decide as Hm.
  - split; [done|]. by intros [? _].
  - rewrite andb_true_iff, !bool_decide_eq_true. naive_solver.
Qed.

Lemma absentIds_intro (d : Z) (st : store) (member : Member.t)
    (record : Absence.t) :
  member ∈ members st → record ∈ presence st →
  Absence.memberId record = Member.id member → inRange d record →
  Member.id member ∈ absentIds d st.
Proof.
  intros Hm Hr Hid Hin. unfold absentIds, getAbsentMembers.
  apply list_elem_of_fmap. exists member. split; [done|].
  apply list_elem_of_filter. split; [|done].
  apply Is_true_true, existsb_exists. exists record. split.
  - by apply list_elem_of_In.
  - by apply covers_spec.
Qed.

Lemma dom_assign (v : Q) (l : list string) (acc : gmap string Q) :
  dom (foldl (λ d k, <[k := v]> d) acc l) = dom acc ∪ list_to_set l.
Proof.
  revert acc. induction l as [|k l IH]; intros acc; simpl.
  - set_solver.
  - rewrite IH, dom_insert_L. set_solver.
Qed.

Lemma dom_assignAll (v : Q) (l : list string) :
  dom (Calculate.assignAll v l) = list_to_set l.
Proof. unfold Calculate.assignAll. rewrite dom_assign. set_solver. Qed.

Lemma dom_addTo_all (v : Q) (l : list string) (acc : gmap string Q) :
  dom (foldl (λ d k, Calculate.addTo d k v) acc l) = dom acc ∪ list_to_set l.
Proof.
  revert acc. induction l as [|k l IH]; intros acc; simpl.
  - set_solver.
  - rewrite IH. unfold Calculate.addTo. rewrite dom_insert_L. set_solver.
Qed.

Lemma dom_redistribute (whole tolerance : Q) (present : list string)
    (details : gmap string Q) :
  dom (redistribute whole tolerance present details)
  ⊆ dom details ∪ list_to_set present.
Proof.
  unfold redistribute. destruct (_ && _).
  - rewrite dom_addTo_all. set_solver.
  - set_solver.
Qed.

Lemma dom_dropAbsent (absent : list string) (details : gmap string Q)
    (k : string) :
  k ∈ absent → k ∉ dom (dropAbsent absent details).
Proof.
  intros Hk Hd. apply elem_of_dom in Hd as [v Hv].
  unfold dropAbsent in Hv. apply map_lookup_filter_Some in Hv as [_ Hv].
  by apply Hv.
Qed.

(** An absent id is among the present participants only through the
    payer fallback. *)
Lemma presentOf_absent (absent : list string) (paidBy : string)
    (participants : list string) (k : string) :
  k ∈ absent → k ∈ presentOf absent paidBy participants →
  (∀ p, p ∈ participants → p ∈ absent)
  ∧ paidBy = k
  ∧ presentOf absent paidBy participants = [paidBy].
Proof.
  intros Hk. unfold presentOf.
  destruct (filter _ participants) as [|p present] eqn:E; simpl.
  - destruct (Num.truthy paidBy); simpl; [|by intros ?%elem_of_nil].
    intros ->%list_elem_of_singleton. split; [|done].
    intros p Hp. destruct (decide (p ∈ absent)) as [|Hn]; [done|].
    assert (Hf : p ∈ filter (λ memberId, memberId ∉ absent) participants)
      by (by apply list_elem_of_filter).
    rewrite E in Hf. by apply elem_of_nil in Hf.
  - rewrite <- E. by intros [? _]%list_elem_of_filter.
Qed.

(** C5. When an expense with a date and a participant list goes through
    [processAbsentMembers], a stored member with an absence record whose
    inclusive range holds the expense date is not a key of the share map
    that is stored, unless every participant was absent and the member is
    the payer, who then is the only participant. *)
Theorem processAbsentMembers_excludes_absent
    (st : store) (expenseData : ExpenseData.t) (d : Z)
    (participants : list string) (member : Member.t) (record : Absence.t) :
  ExpenseData.date expenseData = Some d →
  ExpenseData.splitBetween expenseData = Some participants →
  member ∈ members st →
  record ∈ presence st →
  Absence.memberId record = Member.id member →
  inRange d record →
  Member.id member ∉ dom (storedSplitDetails (processAbsentMembers st expenseData))
  ∨ ((∀ p, p ∈ participants → p ∈ absentIds d st)
     ∧ ExpenseData.paidBy expenseData = Member.id member
     ∧ ExpenseData.splitBetween (processAbsentMembers st expenseData)
       = Some [ExpenseData.paidBy expenseData]).
Proof.
  intros Hd Hsb Hm Hr Hid Hin.
  pose proof (absentIds_intro d st member record Hm Hr Hid Hin) as Habs.
  unfold absentIds in *.
  set (absent := Member.id <$> getAbsentMembers d st) in *.
  set (present := presentOf absent (ExpenseData.paidBy expenseData)
                            participants).
  assert (Hpresent : Member.id member ∈ present →
    (∀ p, p ∈ participants → p ∈ absent)
    ∧ ExpenseData.paidBy expenseData = Member.id member
    ∧ Some present = Some [ExpenseData.paidBy expenseData]).
  { intros H. destruct (presentOf_absent _ _ _ _ Habs H) as (H1 & H2 & H3).
    split; [done|]. split; [done|]. unfold present. by rewrite H3. }
  unfold processAbsentMembers, storedSplitDetails. rewrite Hd, Hsb.
  cbv zeta. fold absent. fold present.
  destruct (decide (Member.id member ∈ present)) as [Hp|Hp];
    [right; by apply Hpresent|left].
  case_bool_decide.
  { simpl. rewrite dom_assignAll. set_solver. }
  destruct (ExpenseData.splitDetails expenseData) as [details|];
    [|simpl; set_solver].
  pose proof (dom_dropAbsent absent details _ Habs) as Hdrop.
  repeat case_bool_decide; simpl; try done;
    intros Hk; apply dom_redistribute in Hk; set_solver.
Qed.

Lemma processAbsentMembers_excludes_absent_witness :
  ExpenseData.date dinner = Some 3%Z
  ∧ bobAway ∈ presence withRent
  ∧ inRange 3 bobAway
  ∧ ("bob" ∉ dom (storedSplitDetails (processAbsentMembers withRent dinner))
     ∨ ((∀ p, p ∈ ["alice"; "bob"; "carol"] → p ∈ absentIds 3 withRent)
        ∧ ExpenseData.paidBy dinner = "bob"
        ∧ ExpenseData.splitBetween (processAbsentMembers withRent dinner)
          = Some [ExpenseData.paidBy dinner])).
Proof.
  assert (Hr : bobAway ∈ presence withRent) by apply list_elem_of_here.
  assert (Hin : inRange 3 bobAway) by (by vm_compute).
  split; [reflexivity|]. split; [exact Hr|]. split; [exact Hin|].
  apply (processAbsentMembers_excludes_absent
           withRent dinner 3 ["alice"; "bob"; "carol"] bob bobAway).
  - reflexivity.
  - reflexivity.
  - apply list_elem_of_further, list_elem_of_here.
  - exact Hr.
  - reflexivity.
  - exact Hin.
Defined.

(** Scenario 4 on the code: Bob is left out and the two others carry
    half of the amount each. *)
Lemma scenario4_evaluation :
  ExpenseData.splitBetween (processAbsentMembers withRent dinner)
  = Some ["alice"; "carol"]
  ∧ storedSplitDetails (processAbsentMembers withRent dinner)
    = {[ "alice" := (60 / 2)%Q; "carol" := (60 / 2)%Q ]}.
Proof. split; by vm_compute. Qed.

(** The payer fallback does occur: Bob, away on day 3, is the only
    participant of the taxi he paid, and stays the sole participant. *)
Lemma payer_fallback_evaluation :
  "bob" ∈ absentIds 3 absenceOnly
  ∧ ExpenseData.splitBetween (processAbsentMembers absenceOnly taxi)
    = Some ["bob"]
  ∧ storedSplitDetails (processAbsentMembers absenceOnly taxi)
    = {[ "bob" := (40 / 1)%Q ]}.
Proof.
  split; [apply list_elem_of_here|]. split; by vm_compute.
Qed.
End AbsenceFilter.

(** ** Settling balances held in whole cents *)

Section Cents.
Import Spec.
Local Open Scope Q_scope.

Lemma floor_half (z : Z) : Qfloor (inject_Z z + (1 # 2)) = z.
Proof.
  pose proof (Qfloor_le (inject_Z z + (1 # 2))) as Hlo.
  pose proof (Qlt_floor (inject_Z z + (1 # 2))) as Hhi.
  set (f := Qfloor (inject_Z z + (1 # 2))) in *.
  rewrite inject_Z_plus in Hhi. change (inject_Z 1) with 1 in Hhi.
  assert (H1 : inject_Z f < inject_Z (z + 1))
    by (rewrite inject_Z_plus; change (inject_Z 1) with 1; lra).
  assert (H2 : inject_Z z < inject_Z (f + 1))
    by (rewrite inject_Z_plus; change (inject_Z 1) with 1; lra).
  rewrite <- Zlt_Qlt in H1. rewrite <- Zlt_Qlt in H2. lia.
Qed.

Lemma round_half_away_whole (q : Q) (z : Z) :
  q == inject_Z z → Num.round_half_away q = z.
Proof.
  intros H. unfold Num.round_half_away. destruct (Qle_bool 0 q).
  - rewrite H. apply floor_half.
  - assert (H' : - q + (1 # 2) == inject_Z (- z) + (1 # 2))
      by (rewrite inject_Z_opp; lra).
    rewrite H', floor_half. lia.
Qed.

Lemma toFixed_cents (q : Q) : wholeCents q → Num.toFixed 2 q == q.
Proof.
  intros [z Hz]. unfold Num.toFixed. rewrite Qred_correct.
  change (Num.pow10 2) with 100.
  rewrite (round_half_away_whole _ z Hz). rewrite <- Hz. field.
Qed.

Lemma wholeCents_proper (a b : Q) : a == b → wholeCents a → wholeCents b.
Proof. intros H [z Hz]. exists z. by rewrite <- H. Qed.

Lemma wholeCents_minus (a b : Q) :
  wholeCents a → wholeCents b → wholeCents (a - b).
Proof.
  intros [x Hx] [y Hy]. exists (x - y)%Z.
  unfold Z.sub. rewrite inject_Z_plus, inject_Z_opp. lra.
Qed.

Lemma wholeCents_opp (a : Q) : wholeCents a → wholeCents (- a).
Proof. intros [x Hx]. exists (- x)%Z. rewrite inject_Z_opp. lra. Qed.

Lemma wholeCents_min (a b : Q) :
  wholeCents a → wholeCents b → wholeCents (Num.min a b).
Proof. intros Ha Hb. unfold Num.min. by destruct (Num.ltb b a). Qed.

(** In whole cents nothing lies strictly between 0 and 0.01. *)
Lemma cents_below_one (a : Q) : wholeCents a → 0 <= a → a < 0.01 → a == 0.
Proof.
  intros [z Hz] H0 H1.
  assert (Hlo : inject_Z 0 <= inject_Z z) by (change (inject_Z 0) with 0; lra).
  assert (Hhi : inject_Z z < inject_Z 1) by (change (inject_Z 1) with 1; lra).
  rewrite <- Zle_Qle in Hlo. rewrite <- Zlt_Qlt in Hhi.
  assert (z = 0)%Z as -> by lia. change (inject_Z 0) with 0 in Hz. lra.
Qed.
End Cents.

Section PartyLists.
Import Calculate Spec.
Local Open Scope Q_scope.

Lemma insert_sorted_perm {A : Type} (cmp : A → A → comparison) (x : A)
    (l : list A) :
  Num.insert_sorted cmp x l ≡ₚ x :: l.
Proof.
  induction l as [|y l IH]; simpl; [done|].
  destruct (cmp x y); try done.
  rewrite IH. apply Permutation_swap.
Qed.

Lemma sort_perm {A : Type} (cmp : A → A → comparison) (l : list A) :
  Num.sort cmp l ≡ₚ l.
Proof.
  induction l as [|x l IH]; simpl; [done|].
  unfold Num.sort in *. simpl. by rewrite insert_sorted_perm, IH.
Qed.

Lemma total_app (l1 l2 : list Party.t) :
  total (l1 ++ l2) == total l1 + total l2.
Proof.
  induction l1 as [|p l1 IH]; simpl; [lra|]. rewrite IH. lra.
Qed.

Lemma total_perm (l1 l2 : list Party.t) : l1 ≡ₚ l2 → total l1 == total l2.
Proof.
  induction 1 as [|p l1 l2 _ IH|p q l|l1 l2 l3 _ IH1 _ IH2]; simpl;
    try lra.
Qed.

(** Overwriting entry [k] changes the sum by the difference of amounts. *)
Lemma total_insert (l : list Party.t) (k : nat) (p p' : Party.t) :
  l !! k = Some p →
  total (<[k := p']> l) == total l - Party.amount p + Party.amount p'.
Proof.
  intros Hk.
  assert (Hl : total l
               == total (take k l) + (Party.amount p + total (drop (S k) l))).
  { rewrite <- (take_drop_middle l k p Hk) at 1. by rewrite total_app. }
  rewrite insert_take_drop by (by eapply lookup_lt_Some).
  rewrite total_app. simpl. lra.
Qed.

Lemma total_zero (l : list Party.t) (p : Party.t) :
  Forall (λ q, 0 <= Party.amount q) l → total l == 0 → p ∈ l →
  Party.amount p == 0.
Proof.
  induction 1 as [|q l Hq Hl IH]; simpl; [by intros _ ?%elem_of_nil|].
  assert (Hnn : 0 <= total l).
  { clear IH. induction Hl as [|? ? ? ? IH']; simpl; lra. }
  intros Hsum [->|Hin]%elem_of_cons; [lra|]. apply IH; [lra|done].
Qed.

Lemma classify_fold (b : gmap string Q) (members : list Member.t)
    (acc : list Party.t * list Party.t) :
  foldl (classify b) acc members
  = (acc.1 ++ creditorsOf b members, acc.2 ++ debtorsOf b members).
Proof.
  revert acc. unfold creditorsOf, debtorsOf.
  induction members as [|m members IH]; intros [cs ds]; simpl.
  - by rewrite !app_nil_r.
  - rewrite IH. unfold classify. simpl. fold (balanceOf b (Member.id m)).
    rewrite !filter_cons.
    destruct (decide (Is_true (isCreditor b m))) as [Hc|Hc];
      destruct (decide (Is_true (isDebtor b m))) as [Hd|Hd];
      unfold isCreditor, isDebtor in Hc, Hd.
    + apply Is_true_true, gtb_gt in Hc. apply Is_true_true, ltb_lt in Hd. lra.
    + apply Is_true_true in Hc. rewrite Hc. simpl. by rewrite <- app_assoc.
    + apply Is_true_false in Hc. apply Is_true_true in Hd. rewrite Hc, Hd.
      simpl. by rewrite <- app_assoc.
    + apply Is_true_false in Hc. apply Is_true_false in Hd. by rewrite Hc, Hd.
Qed.

Lemma init_creditors (b : gmap string Q) (members : list Member.t) :
  creditors (init b members) = Num.sort byAmountDesc (creditorsOf b members).
Proof. unfold init. by rewrite classify_fold. Qed.

Lemma init_debtors (b : gmap string Q) (members : list Member.t) :
  debtors (init b members) = Num.sort byAmountDesc (debtorsOf b members).
Proof. unfold init. by rewrite classify_fold. Qed.

Lemma creditorsOf_elem (b : gmap string Q) (members : list Member.t)
    (p : Party.t) :
  p ∈ creditorsOf b members →
  Party.amount p = balanceOf b (Party.id p) ∧ 0.01 < Party.amount p.
Proof.
  unfold creditorsOf. intros (m & -> & Hm)%list_elem_of_fmap.
  apply list_elem_of_filter in Hm as [Hc _]. simpl. split; [done|].
  by apply gtb_gt, Is_true_true.
Qed.

Lemma debtorsOf_elem (b : gmap string Q) (members : list Member.t)
    (p : Party.t) :
  p ∈ debtorsOf b members →
  Party.amount p = - balanceOf b (Party.id p) ∧ 0.01 < Party.amount p.
Proof.
  unfold debtorsOf. intros (m & -> & Hm)%list_elem_of_fmap.
  apply list_elem_of_filter in Hm as [Hc _]. simpl. split; [done|].
  apply Is_true_true, ltb_lt in Hc. lra.
Qed.

Lemma creditorsOf_ids (b : gmap string Q) (members : list Member.t) :
  Party.id <$> creditorsOf b members
  = Member.id <$> filter (λ member, Is_true (isCreditor b member)) members.
Proof. unfold creditorsOf. rewrite <- list_fmap_compose. done. Qed.

Lemma debtorsOf_ids (b : gmap string Q) (members : list Member.t) :
  Party.id <$> debtorsOf b members
  = Member.id <$> filter (λ member, Is_true (isDebtor b member)) members.
Proof. unfold debtorsOf. rewrite <- list_fmap_compose. done. Qed.

(** Distinct member ids give distinct ids over creditors and debtors. *)
Lemma parties_NoDup (b : gmap string Q) (members : list Member.t) :
  NoDup (Member.id <$> members) →
  NoDup (Party.id <$> creditorsOf b members ++ debtorsOf b members).
Proof.
  intros Hnd. rewrite fmap_app. apply NoDup_app. split; [|split].
  - rewrite creditorsOf_ids.
    eapply sublist_NoDup; [exact Hnd|]. apply fmap_sublist, sublist_filter.
  - intros k Hc Hd.
    apply list_elem_of_fmap in Hc as (p & -> & Hp).
    apply list_elem_of_fmap in Hd as (q & Hid & Hq).
    apply creditorsOf_elem in Hp as [Hp1 Hp2].
    apply debtorsOf_elem in Hq as [Hq1 Hq2].
    rewrite Hp1 in Hp2. rewrite Hq1, <- Hid in Hq2. lra.
  - rewrite debtorsOf_ids.
    eapply sublist_NoDup; [exact Hnd|]. apply fmap_sublist, sublist_filter.
Qed.
End PartyLists.

Section Applying.
Import Calculate Spec.
Local Open Scope Q_scope.

Lemma balanceOf_addTo (x : gmap string Q) (k k' : string) (v : Q) :
  balanceOf (addTo x k v) k'
  = if decide (k = k') then balanceOf x k + v else balanceOf x k'.
Proof.
  unfold balanceOf, addTo. rewrite lookup_insert. by case_decide.
Qed.

Lemma balanceOf_applyInstr (x : gmap string Q) (ins : Instr.t) (k : string) :
  balanceOf (applyInstr x ins) k
  == balanceOf x k
     + (if decide (Instr.from ins = k) then Instr.amount ins else 0)
     - (if decide (Instr.to ins = k) then Instr.amount ins else 0).
Proof.
  destruct ins as [f ? ? ? t ? ? ? a]. unfold applyInstr. simpl.
  rewrite !balanceOf_addTo.
  repeat case_decide; subst; try done; lra.
Qed.

Lemma applyAll_snoc (b : gmap string Q) (l : list Instr.t) (ins : Instr.t) :
  applyAll b (l ++ [ins]) = applyInstr (applyAll b l) ins.
Proof. unfold applyAll. by rewrite foldl_app. Qed.

(** Who is found in a list after entry [k] was overwritten by an entry
    with the same id. *)
Lemma elem_of_insert_same_id (l : list Party.t) (k : nat) (c c' p : Party.t) :
  l !! k = Some c → NoDup (Party.id <$> l) →
  p ∈ <[k := c']> l →
  p = c' ∨ (p ∈ l ∧ Party.id p ≠ Party.id c).
Proof.
  intros Hk Hnd (n & Hn)%list_elem_of_lookup.
  destruct (decide (n = k)) as [->|Hne].
  - rewrite list_lookup_insert_eq in Hn by (by eapply lookup_lt_Some).
    left. congruence.
  - rewrite list_lookup_insert_ne in Hn by done. right.
    split; [by eapply list_elem_of_lookup_2|]. intros Hid. apply Hne.
    eapply (NoDup_lookup _ n k (Party.id c) Hnd);
      rewrite list_lookup_fmap; [by rewrite Hn; simpl; rewrite Hid|by rewrite Hk].
Qed.

Lemma fmap_id_insert (l : list Party.t) (k : nat) (c : Party.t) (a : Q) :
  l !! k = Some c →
  Party.id <$> <[k := Party.setAmount c a]> l = Party.id <$> l.
Proof.
  intros Hk. rewrite list_fmap_insert. apply list_insert_id.
  by rewrite list_lookup_fmap, Hk.
Qed.

Lemma advance_done (l : list Party.t) (k : nat) :
  (∀ n p, (n < k)%nat → l !! n = Some p → Party.amount p < 0.01) →
  ∀ n p, (n < advance l k)%nat → l !! n = Some p → Party.amount p < 0.01.
Proof.
  intros Hdone n p Hn Hp. unfold advance in Hn.
  destruct (l !! k) as [q|] eqn:Eq; [|by eapply Hdone].
  destruct (Num.ltb (Party.amount q) 0.01) eqn:El; [|by eapply Hdone].
  destruct (decide (n = k)) as [->|Hne].
  - apply ltb_lt in El. congruence.
  - apply (Hdone n p); [lia|done].
Qed.
End Applying.

Section Invariant.
Import Calculate Spec.
Local Open Scope Q_scope.

Context (b : gmap string Q) (cids dids : list string).
Hypothesis ids_distinct : NoDup (cids ++ dids).

Lemma settle_i (s : planner) (c d : Party.t) : i (settle s c d) = i s.
Proof. unfold settle. by destruct (Num.gtb _ _). Qed.

Lemma settle_j (s : planner) (c d : Party.t) : j (settle s c d) = j s.
Proof. unfold settle. by destruct (Num.gtb _ _). Qed.

(** The settlement block keeps the invariant. *)
Lemma settle_inv (s : planner) (c d : Party.t) :
  plannerInv b cids dids s →
  creditors s !! i s = Some c → debtors s !! j s = Some d →
  plannerInv b cids dids (settle s c d).
Proof.
  intros Hinv Hc Hd. unfold settle.
  set (sa := Num.min (Party.amount c) (Party.amount d)).
  destruct (Num.gtb sa 0.01) eqn:Egt; [|done].
  destruct Hinv as [Hcids Hdids Hcamt Hdamt Hcdone Hddone Hclink Hdlink
                      Hother Htotal].
  apply NoDup_app in ids_distinct as (Hndc & Hdisj & Hndd).
  assert (Hcin : c ∈ creditors s) by (by eapply list_elem_of_lookup_2).
  assert (Hdin : d ∈ debtors s) by (by eapply list_elem_of_lookup_2).
  destruct (proj1 (Forall_forall _ _) Hcamt c Hcin) as [Hcc Hc0].
  destruct (proj1 (Forall_forall _ _) Hdamt d Hdin) as [Hdc Hd0].
  assert (Hcid : Party.id c ∈ cids)
    by (rewrite <- Hcids; by apply list_elem_of_fmap_2).
  assert (Hdid : Party.id d ∈ dids)
    by (rewrite <- Hdids; by apply list_elem_of_fmap_2).
  assert (Hcd : Party.id c ≠ Party.id d)
    by (intros Heq; apply (Hdisj _ Hcid); by rewrite Heq).
  assert (Hsac : wholeCents sa) by (by apply wholeCents_min).
  assert (Hamt : Num.toFixed 2 sa == sa) by (by apply toFixed_cents).
  assert (Hle : sa <= Party.amount c ∧ sa <= Party.amount d).
  { unfold sa. destruct (min_cases (Party.amount c) (Party.amount d))
      as [[? ->]|[? ->]]; lra. }
  destruct Hle as [Hlec Hled].
  constructor; simpl.
  - rewrite fmap_id_insert; done.
  - rewrite fmap_id_insert; done.
  - apply Forall_insert; [done|]. split; simpl; [|lra].
    by apply wholeCents_minus.
  - apply Forall_insert; [done|]. split; simpl; [|lra].
    by apply wholeCents_minus.
  - intros k p Hk. rewrite list_lookup_insert_ne by lia. by apply Hcdone.
  - intros k p Hk. rewrite list_lookup_insert_ne by lia. by apply Hddone.
  - intros p Hp. rewrite applyAll_snoc, balanceOf_applyInstr. simpl.
    rewrite <- Hcids in Hndc.
    destruct (elem_of_insert_same_id _ _ _ _ _ Hc Hndc Hp) as [->|[Hin Hne]].
    + simpl. rewrite decide_False by done. rewrite decide_True by done.
      rewrite (Hclink c Hcin). lra.
    + assert (Hpid : Party.id p ∈ cids)
        by (rewrite <- Hcids; by apply list_elem_of_fmap_2).
      rewrite decide_False by (intros Heq; apply (Hdisj _ Hpid); by rewrite <- Heq).
      rewrite decide_False by done. rewrite (Hclink p Hin). lra.
  - intros p Hp. rewrite applyAll_snoc, balanceOf_applyInstr. simpl.
    rewrite <- Hdids in Hndd.
    destruct (elem_of_insert_same_id _ _ _ _ _ Hd Hndd Hp) as [->|[Hin Hne]].
    + simpl. rewrite decide_True by done. rewrite decide_False by done.
      rewrite (Hdlink d Hdin). lra.
    + assert (Hpid : Party.id p ∈ dids)
        by (rewrite <- Hdids; by apply list_elem_of_fmap_2).
      rewrite decide_False by done.
      rewrite decide_False by (intros Heq; apply (Hdisj _ Hcid); by rewrite Heq).
      rewrite (Hdlink p Hin). lra.
  - intros k Hkc Hkd. rewrite applyAll_snoc, balanceOf_applyInstr. simpl.
    rewrite decide_False by (by intros <-).
    rewrite decide_False by (by intros <-).
    rewrite (Hother k Hkc Hkd). lra.
  - rewrite (total_insert _ _ c) by done. rewrite (total_insert _ _ d) by done.
    simpl. lra.
Qed.

(** One iteration of the loop keeps the invariant. *)
Lemma step_inv (s : planner) :
  plannerInv b cids dids s → plannerInv b cids dids (step s).
Proof.
  intros Hinv. unfold step.
  destruct (creditors s !! i s) as [c|] eqn:Ec; [|done].
  destruct (debtors s !! j s) as [d|] eqn:Ed; [|done].
  destruct (settle_inv s c d Hinv Ec Ed) as [? ? ? ? Hcdone Hddone ? ? ? ?].
  constructor; simpl; try done.
  - by apply advance_done.
  - by apply advance_done.
Qed.

Lemma loop_inv (fuel : nat) (s r : planner) :
  plannerInv b cids dids s → loop fuel s = Some r →
  plannerInv b cids dids r ∧ running r = false.
Proof.
  revert s. induction fuel as [|fuel IH]; intros s Hinv; simpl.
  - destruct (running s) eqn:E; [discriminate|]. by intros [= <-].
  - destruct (running s) eqn:E; [|by intros [= <-]].
    apply IH. by apply step_inv.
Qed.

(** When the loop has ended every creditor and debtor is at zero. *)
Lemma finished_zero (s : planner) (p : Party.t) :
  plannerInv b cids dids s → running s = false →
  p ∈ creditors s ++ debtors s → Party.amount p == 0.
Proof.
  intros [_ _ Hcamt Hdamt Hcdone Hddone _ _ _ Htotal] Hrun Hp.
  assert (Hnn : ∀ l, Forall nonnegCents l →
                     Forall (λ q, 0 <= Party.amount q) l).
  { intros l Hl. eapply Forall_impl; [exact Hl|]. by intros q [_ ?]. }
  assert (Hall : ∀ l k, Forall nonnegCents l → (length l ≤ k)%nat →
            (∀ n q, (n < k)%nat → l !! n = Some q → Party.amount q < 0.01) →
            ∀ q, q ∈ l → Party.amount q == 0).
  { intros l k Hl Hlen Hdone q (n & Hn)%list_elem_of_lookup.
    destruct (proj1 (Forall_forall _ _) Hl q) as [Hq1 Hq2];
      [by eapply list_elem_of_lookup_2|].
    apply cents_below_one; [done..|].
    apply (Hdone n q); [|done]. apply lookup_lt_Some in Hn. lia. }
  assert (Hsum : ∀ l, (∀ q, q ∈ l → Party.amount q == 0) → total l == 0).
  { induction l as [|q l IHl]; intros Hz; simpl; [lra|].
    rewrite (Hz q) by apply list_elem_of_here.
    rewrite IHl; [lra|]. intros q' Hq'. apply Hz. by apply list_elem_of_further. }
  unfold running in Hrun. apply andb_false_iff in Hrun.
  assert (Hzero : total (creditors s) == 0 ∧ total (debtors s) == 0).
  { destruct Hrun as [Hrun|Hrun]; apply bool_decide_eq_false in Hrun.
    - assert (total (creditors s) == 0)
        by (apply Hsum, (Hall _ (i s)); [done|lia|done]).
      split; [done|]. lra.
    - assert (total (debtors s) == 0)
        by (apply Hsum, (Hall _ (j s)); [done|lia|done]).
      split; [lra|done]. }
  destruct Hzero as [Hzc Hzd].
  apply elem_of_app in Hp as [Hp|Hp].
  - by apply (total_zero (creditors s)); [apply Hnn|..].
  - by apply (total_zero (debtors s)); [apply Hnn|..].
Qed.
End Invariant.

Section Clearing.
Import Calculate Spec Examples.
Local Open Scope Q_scope.

Lemma init_fields (b : gmap string Q) (members : list Member.t) :
  i (init b members) = 0%nat ∧ j (init b members) = 0%nat
  ∧ settlements (init b members) = [].
Proof. done. Qed.

Lemma init_ids_distinct (b : gmap string Q) (members : list Member.t) :
  NoDup (Member.id <$> members) →
  NoDup ((Party.id <$> creditors (init b members))
         ++ (Party.id <$> debtors (init b members))).
Proof.
  intros Hnd. rewrite init_creditors, init_debtors, <- fmap_app.
  rewrite !sort_perm. by apply parties_NoDup.
Qed.

(** The invariant holds when the loop is entered. *)
Lemma init_inv (b : gmap string Q) (members : list Member.t) :
  Forall (λ member, wholeCents (balanceOf b (Member.id member))) members →
  total (creditorsOf b members) == total (debtorsOf b members) →
  plannerInv b (Party.id <$> creditors (init b members))
             (Party.id <$> debtors (init b members)) (init b members).
Proof.
  intros Hcents Htotal.
  destruct (init_fields b members) as (Hi & Hj & Hs).
  assert (Hcin : ∀ p, p ∈ creditors (init b members) → p ∈ creditorsOf b members)
    by (intros p; by rewrite init_creditors, sort_perm).
  assert (Hdin : ∀ p, p ∈ debtors (init b members) → p ∈ debtorsOf b members)
    by (intros p; by rewrite init_debtors, sort_perm).
  constructor; try done.
  - apply Forall_forall. intros p Hp%Hcin.
    pose proof (creditorsOf_elem _ _ _ Hp) as [Ha Hpos].
    unfold creditorsOf in Hp. apply list_elem_of_fmap in Hp as (m & -> & Hm).
    apply list_elem_of_filter in Hm as [_ Hm]. simpl in *.
    split; simpl; [|lra].
    by apply (proj1 (Forall_forall _ _) Hcents m).
  - apply Forall_forall. intros p Hp%Hdin.
    pose proof (debtorsOf_elem _ _ _ Hp) as [Ha Hpos].
    unfold debtorsOf in Hp. apply list_elem_of_fmap in Hp as (m & -> & Hm).
    apply list_elem_of_filter in Hm as [_ Hm]. simpl in *.
    split; simpl; [|lra].
    by apply wholeCents_opp, (proj1 (Forall_forall _ _) Hcents m).
  - rewrite Hi. intros; lia.
  - rewrite Hj. intros; lia.
  - rewrite Hs. intros p Hp%Hcin. simpl.
    apply creditorsOf_elem in Hp as [-> _]. reflexivity.
  - rewrite Hs. intros p Hp%Hdin. simpl.
    apply debtorsOf_elem in Hp as [-> _]. lra.
  - by rewrite init_creditors, init_debtors, !(total_perm _ _ (sort_perm _ _)).
Qed.




(** Amounts that are not whole cents: creditors 1.009 and 1.009 against
    debtors 1, 1 and 0.018 cancel, yet the last debtor is never asked to
    pay. *)
Lemma settlements_fractions_left_over :
  let balances : gmap string Q :=
    {[ "alice" := 1.009; "bob" := 1.009; "carol" := -1; "dave" := -1;
       "erin" := -0.018 ]} in
  let erin := Member.mk "erin" "Erin" "#3B82F6" "E" in
  let members := [alice; bob; carol; dave; erin] in
  total (creditorsOf balances members) == total (debtorsOf balances members)
  ∧ calculateSettlements 2 balances members
    = Some [pays carol alice 1; pays dave bob 1]
  ∧ ¬ settled (applyAll balances [pays carol alice 1; pays dave bob 1]) erin.
Proof. split; [by vm_compute|]. split; by vm_compute. Qed.
End Clearing.

(** ** What the aggregation conserves *)

Section Conservation.
Import Calculate Expense Spec Examples.
Local Open Scope Q_scope.

Lemma sumValues_sumList (m : gmap string Q) :
  sumValues m == sumList (map_to_list m).
Proof.
  unfold sumValues.
  assert (H : ∀ l a, foldl (λ sum (kv : string * Q), sum + kv.2) a l
                     == a + sumList l).
  { induction l as [|kv l IH]; intros a; simpl; [lra|]. rewrite IH. lra. }
  rewrite H. lra.
Qed.

Lemma sumList_perm (l1 l2 : list (string * Q)) :
  l1 ≡ₚ l2 → sumList l1 == sumList l2.
Proof.
  induction 1 as [|kv l1 l2 _ IH|kv kv' l|l1 l2 l3 _ IH1 _ IH2]; simpl;
    try lra.
Qed.

Lemma sumValues_delete (m : gmap string Q) (k : string) (x : Q) :
  m !! k = Some x → sumValues m == x + sumValues (delete k m).
Proof.
  intros Hk. rewrite !sumValues_sumList.
  by rewrite <- (sumList_perm _ _ (map_to_list_delete m k x Hk)).
Qed.

Lemma sumValues_insert (m : gmap string Q) (k : string) (v : Q) :
  sumValues (<[k := v]> m) == sumValues m - balanceOf m k + v.
Proof.
  assert (Hfresh : ∀ m' : gmap string Q, m' !! k = None →
            sumValues (<[k := v]> m') == sumValues m' + v).
  { intros m' Hk. rewrite !sumValues_sumList.
    rewrite (sumList_perm _ _ (map_to_list_insert m' k v Hk)). simpl. lra. }
  unfold balanceOf. destruct (m !! k) as [x|] eqn:Ek; simpl.
  - rewrite <- insert_delete_eq, Hfresh by apply lookup_delete_eq.
    rewrite (sumValues_delete m k x Ek). lra.
  - rewrite Hfresh by done. lra.
Qed.

Lemma sumValues_addTo (m : gmap string Q) (k : string) (v : Q) :
  sumValues (addTo m k v) == sumValues m + v.
Proof. unfold addTo. rewrite sumValues_insert. unfold balanceOf. lra. Qed.

(** The shares charged to the participants other than the payer. *)
Lemma sumValues_charge (paidBy : string) (l : list (string * Q))
    (b0 : gmap string Q) :
  sumValues (foldl (λ b (kv : string * Q), chargeShare paidBy b kv.1 kv.2) b0 l)
  == sumValues b0 - sumList (filter (λ kv, kv.1 ≠ paidBy) l).
Proof.
  revert b0. induction l as [|[p share] l IH]; intros b0; simpl; [lra|].
  rewrite IH, filter_cons. unfold chargeShare. simpl.
  case_bool_decide; case_decide; try done.
  rewrite sumValues_addTo. simpl. lra.
Qed.

Lemma sumList_filter_perm (k : string) (l1 l2 : list (string * Q)) :
  l1 ≡ₚ l2 →
  sumList (filter (λ kv, kv.1 ≠ k) l1) == sumList (filter (λ kv, kv.1 ≠ k) l2).
Proof.
  induction 1 as [|kv l1 l2 _ IH|kv kv' l|l1 l2 l3 _ IH1 _ IH2];
    rewrite ?filter_cons; repeat case_decide; simpl; try lra.
Qed.

Lemma sumList_filter_all (k : string) (l : list (string * Q)) :
  Forall (λ kv, kv.1 ≠ k) l → sumList (filter (λ kv, kv.1 ≠ k) l) == sumList l.
Proof.
  induction 1 as [|kv l Hkv _ IH]; [done|].
  rewrite filter_cons_True by done. simpl. lra.
Qed.

Lemma sumList_without (m : gmap string Q) (k : string) :
  sumList (filter (λ kv, kv.1 ≠ k) (map_to_list m))
  == sumValues m - balanceOf m k.
Proof.
  assert (Hfresh : ∀ m' : gmap string Q, m' !! k = None →
            sumList (filter (λ kv, kv.1 ≠ k) (map_to_list m')) == sumValues m').
  { intros m' Hk. rewrite sumValues_sumList. apply sumList_filter_all.
    apply Forall_forall. intros [k' v] Hin%elem_of_map_to_list. simpl.
    intros ->. congruence. }
  unfold balanceOf. destruct (m !! k) as [x|] eqn:Ek; simpl.
  - rewrite <- (sumList_filter_perm k _ _ (map_to_list_delete m k x Ek)).
    rewrite filter_cons_False by (simpl; by intros ?).
    rewrite Hfresh by apply lookup_delete_eq.
    rewrite (sumValues_delete m k x Ek). lra.
  - rewrite Hfresh by done. lra.
Qed.

Lemma sumValues_initBalances (members : list Member.t) :
  sumValues (initBalances members) == 0.
Proof.
  unfold initBalances.
  assert (H : ∀ (l : list Member.t) (acc : gmap string Q),
            (∀ k, balanceOf acc k == 0) → sumValues acc == 0 →
            sumValues (foldl (λ balances member,
                                <[Member.id member := 0]> balances) acc l) == 0).
  { induction l as [|m l IH]; intros acc Hz Hs; simpl; [done|].
    apply IH.
    - intros k. unfold balanceOf. rewrite lookup_insert.
      case_decide; [done|apply Hz].
    - rewrite sumValues_insert, Hs, (Hz (Member.id m)). lra. }
  apply H; [|done]. intros k. unfold balanceOf. by rewrite lookup_empty.
Qed.

(** One expense with a share map adds its surplus to the sum. *)
Lemma sumValues_applyExpense (balances : gmap string Q) (e : ExpenseData.t) :
  is_Some (ExpenseData.splitDetails e) →
  sumValues (applyExpense balances e) == sumValues balances + surplus e.
Proof.
  intros [sd Hsd]. unfold applyExpense, surplus, shareTotal, ownShare.
  rewrite Hsd. simpl.
  rewrite sumValues_charge, sumValues_addTo, sumList_without. lra.
Qed.

Lemma aggregate_all_present (expenses : list ExpenseData.t)
    (members : list Member.t) :
  aggregate (Some <$> expenses) members
  = Some (foldl applyExpense (initBalances members) expenses).
Proof.
  unfold aggregate. generalize (initBalances members).
  induction expenses as [|e expenses IH]; intros acc; simpl; [done|].
  apply IH.
Qed.

(** Before the final rounding the balances sum to the surpluses of the
    expenses: credits and debits cancel only as far as each payer's credit
    is matched by the shares of the others. *)
Lemma aggregate_sum (expenses : list ExpenseData.t) (members : list Member.t)
    (balances : gmap string Q) :
  Forall (λ e, is_Some (ExpenseData.splitDetails e)) expenses →
  aggregate (Some <$> expenses) members = Some balances →
  sumValues balances == sumOver surplus expenses.
Proof.
  rewrite aggregate_all_present. intros Hsd [= <-].
  assert (H : ∀ acc, sumValues (foldl applyExpense acc expenses)
                     == sumValues acc + sumOver surplus expenses).
  { induction Hsd as [|e expenses He _ IH]; intros acc; simpl; [lra|].
    rewrite IH, sumValues_applyExpense by done. lra. }
  rewrite H, sumValues_initBalances. lra.
Qed.

(** When the shares of every expense add up to its amount, what is left
    over is the payers' own shares. *)
Lemma aggregate_sum_own_shares (expenses : list ExpenseData.t)
    (members : list Member.t) (balances : gmap string Q) :
  Forall (λ e, is_Some (ExpenseData.splitDetails e)
               ∧ shareTotal e == Num.or0 (ExpenseData.amount e)) expenses →
  aggregate (Some <$> expenses) members = Some balances →
  sumValues balances == sumOver ownShare expenses.
Proof.
  intros Hall Hagg. rewrite (aggregate_sum expenses members balances).
  - clear Hagg. induction Hall as [|e expenses [_ He] _ IH]; simpl; [done|].
    rewrite IH. unfold surplus. lra.
  - eapply Forall_impl; [exact Hall|]. by intros e [? _].
  - done.
Qed.
End Conservation.

(** ** Rounding *)

Section Rounding.
Import Spec.
Local Open Scope Q_scope.

(** Rounding to the nearest integer moves a number by at most one half. *)
Lemma round_half_away_near (q : Q) :
  q - (1 # 2) <= inject_Z (Num.round_half_away q) <= q + (1 # 2).
Proof.
  unfold Num.round_half_away. destruct (Qle_bool 0 q).
  - pose proof (Qfloor_le (q + (1 # 2))) as Hlo.
    pose proof (Qlt_floor (q + (1 # 2))) as Hhi.
    rewrite inject_Z_plus in Hhi. change (inject_Z 1) with 1 in Hhi. lra.
  - pose proof (Qfloor_le (- q + (1 # 2))) as Hlo.
    pose proof (Qlt_floor (- q + (1 # 2))) as Hhi.
    rewrite inject_Z_plus in Hhi. change (inject_Z 1) with 1 in Hhi.
    rewrite inject_Z_opp. lra.
Qed.

Lemma round_half_away_mono (a b : Q) :
  a <= b → (Num.round_half_away a <= Num.round_half_away b)%Z.
Proof.
  intros Hab. unfold Num.round_half_away.
  destruct (Qle_bool 0 a) eqn:Ea; destruct (Qle_bool 0 b) eqn:Eb.
  - apply Qfloor_resp_le. lra.
  - apply Qle_bool_iff in Ea.
    assert (¬ 0 <= b) by (rewrite <- Qle_bool_iff; congruence). lra.
  - assert (Hna : ¬ 0 <= a) by (rewrite <- Qle_bool_iff; congruence).
    apply Qle_bool_iff in Eb.
    assert (0 <= Qfloor (- a + (1 # 2)))%Z.
    { change 0%Z with (Qfloor 0). apply Qfloor_resp_le. lra. }
    assert (0 <= Qfloor (b + (1 # 2)))%Z.
    { change 0%Z with (Qfloor 0). apply Qfloor_resp_le. lra. }
    lia.
  - assert (Qfloor (- b + (1 # 2)) <= Qfloor (- a + (1 # 2)))%Z
      by (apply Qfloor_resp_le; lra).
    lia.
Qed.

(** [toFixed(2)] moves a number by at most half a cent, keeps the order
    and yields whole cents. *)
Lemma toFixed2_value (q : Q) :
  Num.toFixed 2 q * 100 == inject_Z (Num.round_half_away (q * 100)).
Proof.
  unfold Num.toFixed. rewrite Qred_correct. change (Num.pow10 2) with 100.
  field.
Qed.

Lemma toFixed2_near (q : Q) : Qabs (Num.toFixed 2 q - q) <= 0.005.
Proof.
  apply Qabs_Qle_condition.
  pose proof (toFixed2_value q) as Hv.
  pose proof (round_half_away_near (q * 100)) as Hn. lra.
Qed.

Lemma toFixed2_mono (a b : Q) : a <= b → Num.toFixed 2 a <= Num.toFixed 2 b.
Proof.
  intros Hab.
  pose proof (toFixed2_value a) as Ha. pose proof (toFixed2_value b) as Hb.
  assert (Hm : (Num.round_half_away (a * 100)
                <= Num.round_half_away (b * 100))%Z)
    by (apply round_half_away_mono; lra).
  rewrite Zle_Qle in Hm. lra.
Qed.

Lemma toFixed2_cents (q : Q) : wholeCents (Num.toFixed 2 q).
Proof. eexists. apply toFixed2_value. Qed.
End Rounding.

(** ** The split calculators *)

Section Splits.
Import Calculate Expense Spec Examples.
Local Open Scope Q_scope.

Lemma totalOf_sumValues (m : gmap string Q) : totalOf m = sumValues m.
Proof. reflexivity. Qed.

Lemma lookup_assign (v : Q) (l : list string) (acc : gmap string Q)
    (p : string) :
  foldl (λ d k, <[k := v]> d) acc l !! p
  = if decide (p ∈ l) then Some v else acc !! p.
Proof.
  revert acc. induction l as [|k l IH]; intros acc; cbn [foldl].
  - case_decide as H; [by apply elem_of_nil in H|done].
  - rewrite IH. repeat case_decide; try done.
    + exfalso. set_solver.
    + rewrite lookup_insert. case_decide; [done|]. exfalso. set_solver.
    + rewrite lookup_insert_ne; [done|]. set_solver.
Qed.

Lemma length_Q_succ (n : nat) :
  inject_Z (Z.of_nat (S n)) == inject_Z (Z.of_nat n) + 1.
Proof. rewrite Nat2Z.inj_succ. unfold Z.succ. by rewrite inject_Z_plus. Qed.

Lemma length_Q_nonneg (n : nat) : 0 <= inject_Z (Z.of_nat n).
Proof.
  change 0 with (inject_Z 0). rewrite <- Zle_Qle. lia.
Qed.

Lemma sum_assign (v : Q) (l : list string) (acc : gmap string Q) :
  NoDup l → (∀ k, k ∈ l → acc !! k = None) →
  sumValues (foldl (λ d k, <[k := v]> d) acc l)
  == sumValues acc + v * inject_Z (Z.of_nat (length l)).
Proof.
  intros Hnd. revert acc.
  induction Hnd as [|k l Hk Hnd IH]; intros acc Hfresh.
  - simpl. change (inject_Z (Z.of_nat 0)) with 0. lra.
  - cbn [foldl]. rewrite IH.
    + rewrite sumValues_insert. unfold balanceOf.
      rewrite (Hfresh k) by apply list_elem_of_here.
      cbn [length Num.or0 default]. rewrite length_Q_succ. simpl. lra.
    + intros k' Hk'. rewrite lookup_insert_ne by (by intros ->).
      apply Hfresh. by apply list_elem_of_further.
Qed.

(** The per-value rounding of a share map moves its sum by at most half
    a cent per entry. *)
Lemma sumList_rounded (f : Q → Q) (e : Q) (l : list (string * Q)) :
  (∀ q, Qabs (f q - q) <= e) →
  Qabs (sumList (prod_map id f <$> l) - sumList l)
  <= e * inject_Z (Z.of_nat (length l)).
Proof.
  intros Hf. induction l as [|[k q] l IH].
  - apply Qabs_Qle_condition. cbn [fmap list_fmap sumList foldr length].
    change (inject_Z (Z.of_nat 0)) with 0. lra.
  - cbn [fmap list_fmap sumList foldr length prod_map fst snd id].
    rewrite length_Q_succ.
    apply Qabs_Qle_condition in IH. specialize (Hf q).
    apply Qabs_Qle_condition in Hf. apply Qabs_Qle_condition.
    unfold sumList in *. simpl in *. lra.
Qed.

Lemma sumValues_fmap_near (f : Q → Q) (e : Q) (m : gmap string Q) :
  (∀ q, Qabs (f q - q) <= e) →
  Qabs (sumValues (f <$> m) - sumValues m)
  <= e * inject_Z (Z.of_nat (size m)).
Proof.
  intros Hf. rewrite !sumValues_sumList.
  rewrite map_to_list_fmap, <- length_map_to_list. by apply sumList_rounded.
Qed.

Lemma sumValues_empty : sumValues (∅ : gmap string Q) == 0.
Proof. rewrite sumValues_sumList, map_to_list_empty. reflexivity. Qed.





Lemma sumList_scaled (a : Q) (l : list (string * Q)) :
  sumList (prod_map id (λ p, a * p / 100) <$> l) == a * sumList l / 100.
Proof.
  induction l as [|[k q] l IH]; simpl; [field|].
  unfold sumList in *. simpl in *. rewrite IH. field.
Qed.



End Splits.

(** ** What every member's balance is *)

Section PerMember.
Import Calculate Expense Spec Examples.
Local Open Scope Q_scope.

Lemma round_half_away_proper (a b : Q) :
  a == b → Num.round_half_away a = Num.round_half_away b.
Proof.
  intros H. unfold Num.round_half_away.
  assert (Hb : Qle_bool 0 a = Qle_bool 0 b).
  { destruct (Qle_bool 0 a) eqn:Ea; destruct (Qle_bool 0 b) eqn:Eb; try done.
    - apply Qle_bool_iff in Ea. rewrite H in Ea. apply Qle_bool_iff in Ea.
      congruence.
    - apply Qle_bool_iff in Eb. rewrite <- H in Eb. apply Qle_bool_iff in Eb.
      congruence. }
  rewrite Hb. destruct (Qle_bool 0 b).
  - apply Qfloor_comp. by rewrite H.
  - f_equal. apply Qfloor_comp. by rewrite H.
Qed.

Lemma toFixed_proper (digits : nat) (a b : Q) :
  a == b → Num.toFixed digits a = Num.toFixed digits b.
Proof.
  intros H. unfold Num.toFixed. apply Qred_complete.
  rewrite (round_half_away_proper (a * Num.pow10 digits) (b * Num.pow10 digits));
    [reflexivity|]. by rewrite H.
Qed.

Lemma balanceOf_initBalances (members : list Member.t) (k : string) :
  balanceOf (initBalances members) k = 0.
Proof.
  unfold initBalances.
  assert (H : ∀ (l : list Member.t) (acc : gmap string Q),
            balanceOf acc k = 0 →
            balanceOf (foldl (λ balances member,
                                <[Member.id member := 0]> balances) acc l) k
            = 0).
  { induction l as [|m l IH]; intros acc Hacc; simpl; [done|].
    apply IH. unfold balanceOf. rewrite lookup_insert.
    case_decide; [done|apply Hacc]. }
  apply H. unfold balanceOf. by rewrite lookup_empty.
Qed.

Lemma sumList_split (k : string) (l : list (string * Q)) :
  sumList (filter (λ kv, kv.1 = k) l) + sumList (filter (λ kv, kv.1 ≠ k) l)
  == sumList l.
Proof.
  induction l as [|[p q] l IH]; [reflexivity|].
  rewrite !filter_cons. simpl.
  destruct (decide (p = k)); destruct (decide (p ≠ k)); try done;
    unfold sumList in *; simpl in *; lra.
Qed.

Lemma sumList_key (m : gmap string Q) (k : string) :
  sumList (filter (λ kv, kv.1 = k) (map_to_list m)) == balanceOf m k.
Proof.
  pose proof (sumList_split k (map_to_list m)) as Hs.
  pose proof (sumList_without m k) as Hw.
  rewrite sumValues_sumList in Hw. lra.
Qed.

(** The shares a list of entries charges to [k]. *)
Lemma balanceOf_charge_entries (paidBy k : string) (l : list (string * Q))
    (b0 : gmap string Q) :
  balanceOf (foldl (λ b (kv : string * Q), chargeShare paidBy b kv.1 kv.2) b0 l)
            k
  == balanceOf b0 k
     - (if decide (paidBy = k) then 0
        else sumList (filter (λ kv, kv.1 = k) l)).
Proof.
  revert b0. induction l as [|[p share] l IH]; intros b0.
  - simpl. case_decide; lra.
  - cbn [foldl]. rewrite IH, filter_cons. unfold chargeShare. simpl.
    case_bool_decide as Hp; [rewrite balanceOf_addTo|];
      repeat case_decide; subst; try done; unfold sumList; simpl; lra.
Qed.

Lemma balanceOf_charge_list (paidBy k : string) (share : Q)
    (l : list string) (b0 : gmap string Q) :
  balanceOf (foldl (λ b participantId, chargeShare paidBy b participantId share)
                   b0 l) k
  == balanceOf b0 k
     - (if decide (paidBy = k) then 0
        else share * inject_Z (Z.of_nat (length (filter (λ p, p = k) l)))).
Proof.
  revert b0. induction l as [|p l IH]; intros b0.
  - simpl. change (inject_Z (Z.of_nat 0)) with 0. case_decide; lra.
  - cbn [foldl]. rewrite IH, filter_cons. unfold chargeShare.
    case_bool_decide as Hp; [rewrite balanceOf_addTo|];
      repeat case_decide; subst; try done;
      cbn [length]; rewrite ?length_Q_succ; lra.
Qed.

(** One expense moves the balance of [k] by its contribution. *)
Lemma balanceOf_applyExpense (b : gmap string Q) (e : ExpenseData.t)
    (k : string) :
  balanceOf (applyExpense b e) k == balanceOf b k + contribution k e.
Proof.
  unfold applyExpense, contribution, owedBy.
  destruct (decide (ExpenseData.paidBy e = k)) as [<-|Hk].
  - destruct (ExpenseData.splitDetails e) as [sd|];
      [|destruct (ExpenseData.splitBetween e) as [[|p l]|]];
      rewrite ?balanceOf_charge_entries, ?balanceOf_charge_list,
        balanceOf_addTo, ?decide_True by done; lra.
  - destruct (ExpenseData.splitDetails e) as [sd|];
      [|destruct (ExpenseData.splitBetween e) as [[|p l]|]];
      rewrite ?balanceOf_charge_entries, ?balanceOf_charge_list,
        balanceOf_addTo, ?decide_False by done;
      rewrite ?sumList_key; lra.
Qed.

Lemma balanceOf_fold_applyExpense (expenses : list ExpenseData.t)
    (b : gmap string Q) (k : string) :
  balanceOf (foldl applyExpense b expenses) k
  == balanceOf b k + sumOver (contribution k) expenses.
Proof.
  revert b. induction expenses as [|e expenses IH]; intros b; simpl; [lra|].
  rewrite IH, balanceOf_applyExpense. lra.
Qed.

End PerMember.

(** ** The settlement loop: progress and the shape of its output *)

Section Progress.
Import Calculate Spec Examples.
Local Open Scope Q_scope.

Lemma settle_creditors_length (s : planner) (c d : Party.t) :
  length (creditors (settle s c d)) = length (creditors s).
Proof.
  unfold settle. destruct (Num.gtb _ _); simpl; [|done].
  by rewrite length_insert.
Qed.

Lemma settle_debtors_length (s : planner) (c d : Party.t) :
  length (debtors (settle s c d)) = length (debtors s).
Proof.
  unfold settle. destruct (Num.gtb _ _); simpl; [|done].
  by rewrite length_insert.
Qed.

Lemma step_creditors_length (s : planner) :
  length (creditors (step s)) = length (creditors s).
Proof.
  unfold step. destruct (creditors s !! i s), (debtors s !! j s); simpl;
    try done. apply settle_creditors_length.
Qed.

Lemma step_debtors_length (s : planner) :
  length (debtors (step s)) = length (debtors s).
Proof.
  unfold step. destruct (creditors s !! i s), (debtors s !! j s); simpl;
    try done. apply settle_debtors_length.
Qed.

Lemma advance_cases (l : list Party.t) (k : nat) :
  advance l k = k ∨ (advance l k = S k ∧ (k < length l)%nat).
Proof.
  unfold advance. destruct (l !! k) as [p|] eqn:E; [|by left].
  destruct (Num.ltb _ _); [right|by left].
  split; [done|]. by apply lookup_lt_Some in E.
Qed.

Lemma advance_paid (l : list Party.t) (k : nat) (p : Party.t) :
  l !! k = Some p → Party.amount p == 0 → advance l k = S k.
Proof.
  intros E Hp. unfold advance. rewrite E.
  assert (H : Num.ltb (Party.amount p) 0.01 = true) by (apply ltb_lt; lra).
  by rewrite H.
Qed.

Lemma running_lookup (s : planner) :
  running s = true →
  ∃ c d, creditors s !! i s = Some c ∧ debtors s !! j s = Some d.
Proof.
  unfold running. intros [Hi Hj]%andb_true_iff.
  apply bool_decide_eq_true in Hi, Hj.
  apply lookup_lt_is_Some in Hi as [c Hc], Hj as [d Hd]. eauto.
Qed.

(** The pointers one iteration leaves: each stays or moves on by one, and
    an iteration that emits an instruction moves at least one of them. *)
Lemma step_moves (s : planner) :
  running s = true →
  (i (step s) = i s ∨ (i (step s) = S (i s) ∧ (i s < length (creditors s))%nat))
  ∧ (j (step s) = j s ∨ (j (step s) = S (j s) ∧ (j s < length (debtors s))%nat))
  ∧ ((settlements (step s) = settlements s
      ∧ (i (step s) = i s → j (step s) = j s → step s = s))
     ∨ (length (settlements (step s)) = S (length (settlements s))
        ∧ (i (step s) = S (i s) ∨ j (step s) = S (j s)))).
Proof.
  intros Hrun. destruct (running_lookup s Hrun) as (c & d & Hc & Hd).
  pose proof (settle_creditors_length s c d) as Hlc.
  pose proof (settle_debtors_length s c d) as Hld.
  unfold step. rewrite Hc, Hd. simpl.
  split; [|split].
  - destruct (advance_cases (creditors (settle s c d)) (i (settle s c d)))
      as [->|[-> Hlt]]; rewrite settle_i in *; [by left|right].
    split; [done|]. by rewrite <- Hlc.
  - destruct (advance_cases (debtors (settle s c d)) (j (settle s c d)))
      as [->|[-> Hlt]]; rewrite settle_j in *; [by left|right].
    split; [done|]. by rewrite <- Hld.
  - unfold settle.
    destruct (Num.gtb (Num.min (Party.amount c) (Party.amount d)) 0.01) eqn:Eg;
      simpl.
    + right. split; [rewrite length_app; simpl; lia|].
      destruct (min_cases (Party.amount c) (Party.amount d)) as [[_ ->]|[_ ->]].
      * right. apply (advance_paid _ _ (Party.setAmount d
                                          (Party.amount d - Party.amount d))).
        -- apply list_lookup_insert_eq. by apply lookup_lt_Some in Hd.
        -- simpl. lra.
      * left. apply (advance_paid _ _ (Party.setAmount c
                                         (Party.amount c - Party.amount c))).
        -- apply list_lookup_insert_eq. by apply lookup_lt_Some in Hc.
        -- simpl. lra.
    + left. split; [done|]. intros -> ->. by destruct s.
Qed.

Lemma step_remaining (s : planner) :
  running s = true → step s = s ∨ (remaining (step s) < remaining s)%nat.
Proof.
  intros Hrun. destruct (step_moves s Hrun) as (Hi & Hj & Hs).
  unfold remaining. rewrite step_creditors_length, step_debtors_length.
  destruct Hs as [[_ Hsame]|[_ Hmove]].
  - destruct Hi as [Hi|[Hi ?]], Hj as [Hj|[Hj ?]];
      [left; by apply Hsame|right; lia..].
  - right. destruct Hi as [Hi|[Hi ?]], Hj as [Hj|[Hj ?]]; lia.
Qed.

(** A loop entered with at most [n] entries to go returns within [n]
    iterations or not at all. *)
Lemma loop_returns_or_hangs (n : nat) (s : planner) :
  (remaining s ≤ n)%nat →
  (∃ r, loop n s = Some r) ∨ (∀ fuel, loop fuel s = None).
Proof.
  revert s. induction n as [|n IH]; intros s Hn.
  - destruct (running s) eqn:Hrun.
    + exfalso. unfold running in Hrun. apply andb_true_iff in Hrun as [Hi Hj].
      apply bool_decide_eq_true in Hi, Hj. unfold remaining in Hn. lia.
    + left. exists s. simpl. by rewrite Hrun.
  - destruct (running s) eqn:Hrun.
    + destruct (step_remaining s Hrun) as [Hfix|Hless].
      * right. by apply loop_stuck.
      * destruct (IH (step s)) as [[r Hr]|Hnone]; [lia| |].
        -- left. exists r. simpl. by rewrite Hrun.
        -- right. intros [|fuel]; simpl; rewrite Hrun; [done|apply Hnone].
    + left. exists s. simpl. by rewrite Hrun.
Qed.

Lemma parties_length (b : gmap string Q) (members : list Member.t) :
  (length (creditorsOf b members) + length (debtorsOf b members)
   ≤ length members)%nat.
Proof.
  unfold creditorsOf, debtorsOf. rewrite !length_fmap.
  induction members as [|m members IH]; simpl; [done|].
  rewrite !filter_cons.
  destruct (decide (Is_true (isCreditor b m))) as [Hc|Hc];
    destruct (decide (Is_true (isDebtor b m))) as [Hd|Hd]; simpl; try lia.
  exfalso. apply Is_true_true in Hc, Hd. unfold isCreditor, isDebtor in *.
  apply gtb_gt in Hc. apply ltb_lt in Hd. lra.
Qed.

Lemma sort_length {A : Type} (cmp : A → A → comparison) (l : list A) :
  length (Num.sort cmp l) = length l.
Proof. by rewrite sort_perm. Qed.

Lemma init_remaining (b : gmap string Q) (members : list Member.t) :
  (remaining (init b members) ≤ length members)%nat.
Proof.
  unfold remaining. rewrite init_creditors, init_debtors, !sort_length.
  pose proof (parties_length b members). simpl. lia.
Qed.

(** X5. The settlement loop either returns within as many iterations as
    there are members, with the same instructions for every larger bound,
    or never returns. *)
Theorem calculateSettlements_returns_or_hangs (b : gmap string Q)
    (members : list Member.t) :
  (∃ l, ∀ fuel, (length members ≤ fuel)%nat →
          calculateSettlements fuel b members = Some l)
  ∨ (∀ fuel, calculateSettlements fuel b members = None).
Proof.
  unfold calculateSettlements, run.
  destruct (loop_returns_or_hangs (length members) (init b members)
              (init_remaining b members)) as [[r Hr]|Hnone].
  - left. exists (settlements r). intros fuel Hfuel.
    replace fuel with (length members + (fuel - length members))%nat by lia.
    by rewrite (loop_more_fuel _ _ _ _ Hr).
  - right. intros fuel. by rewrite Hnone.
Qed.

Lemma step_paced (s : planner) : running s = true → paced s → paced (step s).
Proof.
  intros Hrun (Hi & Hj & Hlen). destruct (step_moves s Hrun) as (Mi & Mj & Ms).
  unfold running in Hrun. apply andb_true_iff in Hrun as [Ri Rj].
  apply bool_decide_eq_true in Ri, Rj.
  rewrite bool_decide_eq_false_2 in Hlen by lia.
  unfold paced. rewrite step_creditors_length, step_debtors_length.
  split; [destruct Mi as [->|[-> ?]]; lia|].
  split; [destruct Mj as [->|[-> ?]]; lia|].
  case_bool_decide as Hend.
  - destruct Hend as [Ei Ej].
    destruct Ms as [[-> _]|[-> _]]; destruct Mi as [Mi|[Mi ?]];
      destruct Mj as [Mj|[Mj ?]]; lia.
  - destruct Ms as [[-> _]|[-> Hmove]]; destruct Mi as [Mi|[Mi ?]];
      destruct Mj as [Mj|[Mj ?]]; lia.
Qed.

Lemma loop_paced (fuel : nat) (s r : planner) :
  paced s → loop fuel s = Some r →
  paced r ∧ running r = false
  ∧ length (creditors r) = length (creditors s)
  ∧ length (debtors r) = length (debtors s).
Proof.
  revert s. induction fuel as [|fuel IH]; intros s Hp; simpl;
    destruct (running s) eqn:Hrun; try discriminate.
  - by intros [= <-].
  - intros Hloop.
    destruct (IH (step s) (step_paced s Hrun Hp) Hloop) as (? & ? & Hc & Hd).
    by rewrite Hc, Hd, step_creditors_length, step_debtors_length.
  - by intros [= <-].
Qed.

(** X6. Settling needs fewer instructions than there are members: every
    instruction brings a creditor or a debtor to zero, and the last one
    both. *)
Theorem calculateSettlements_count (fuel : nat) (b : gmap string Q)
    (members : list Member.t) (l : list Instr.t) :
  calculateSettlements fuel b members = Some l →
  (length l ≤ length members - 1)%nat.
Proof.
  unfold calculateSettlements, run.
  destruct (loop fuel (init b members)) as [r|] eqn:Eloop; [|discriminate].
  intros [= <-].
  assert (Hinit : paced (init b members)).
  { unfold paced. simpl. repeat split; lia. }
  destruct (loop_paced _ _ _ Hinit Eloop) as ((Hi & Hj & Hlen) & Hend & Hc & Hd).
  rewrite init_creditors, sort_length in Hc.
  rewrite init_debtors, sort_length in Hd.
  pose proof (parties_length b members) as Hparts.
  unfold running in Hend. apply andb_false_iff in Hend.
  rewrite !bool_decide_eq_false in Hend.
  case_bool_decide; lia.
Qed.

Lemma calculateSettlements_count_witness :
  calculateSettlements 2 claimedBalances household
  = Some [pays bob alice 30; pays carol alice 30]
  ∧ (length [pays bob alice 30; pays carol alice 30]
     ≤ length household - 1)%nat.
Proof.
  assert (H : calculateSettlements 2 claimedBalances household
              = Some [pays bob alice 30; pays carol alice 30])
    by (vm_compute; reflexivity).
  split; [exact H|].
  exact (calculateSettlements_count 2 claimedBalances household _ H).
Defined.

Lemma calculateSettlements_returns_or_hangs_witness :
  (∃ l, ∀ fuel, (length household ≤ fuel)%nat →
          calculateSettlements fuel claimedBalances household = Some l)
  ∧ (∀ fuel, calculateSettlements fuel stuckBalances household = None).
Proof.
  split.
  - destruct (calculateSettlements_returns_or_hangs claimedBalances household)
      as [Hret|Hnone]; [exact Hret|].
    specialize (Hnone 2%nat). vm_compute in Hnone. discriminate.
  - destruct (calculateSettlements_returns_or_hangs stuckBalances household)
      as [[l Hret]|Hnone]; [|exact Hnone].
    specialize (Hret 3%nat (le_n 3)). vm_compute in Hret. discriminate.
Defined.

End Progress.

Section Instructions.
Import Calculate Spec Examples.
Local Open Scope Q_scope.

Lemma creditorsOf_nil (b : gmap string Q) (members : list Member.t) :
  Forall (λ member, balanceOf b (Member.id member) <= 0.01) members →
  creditorsOf b members = [].
Proof.
  intros Hall. unfold creditorsOf.
  induction Hall as [|m members Hm _ IH]; [done|].
  rewrite filter_cons_False; [done|].
  intros Hc%Is_true_true. unfold isCreditor in Hc. apply gtb_gt in Hc. lra.
Qed.

Lemma debtorsOf_nil (b : gmap string Q) (members : list Member.t) :
  Forall (λ member, -0.01 <= balanceOf b (Member.id member)) members →
  debtorsOf b members = [].
Proof.
  intros Hall. unfold debtorsOf.
  induction Hall as [|m members Hm _ IH]; [done|].
  rewrite filter_cons_False; [done|].
  intros Hc%Is_true_true. unfold isDebtor in Hc. apply ltb_lt in Hc. lra.
Qed.

(** X7. Without a balance above 0.01, or without one below -0.01, there
    is nothing to match: the planner returns at once with no
    instruction, whatever the other side owes or is owed. *)
Theorem calculateSettlements_one_sided (fuel : nat) (b : gmap string Q)
    (members : list Member.t) :
  Forall (λ member, balanceOf b (Member.id member) <= 0.01) members
  ∨ Forall (λ member, -0.01 <= balanceOf b (Member.id member)) members →
  calculateSettlements fuel b members = Some [].
Proof.
  intros Hside. unfold calculateSettlements, run.
  assert (Hstop : running (init b members) = false).
  { unfold running. rewrite init_creditors, init_debtors.
    destruct Hside as [H|H].
    - rewrite (creditorsOf_nil _ _ H). done.
    - rewrite (debtorsOf_nil _ _ H). simpl. apply andb_false_r. }
  destruct fuel; simpl; by rewrite Hstop.
Qed.

Lemma calculateSettlements_one_sided_witness :
  Forall (λ member, -0.01 <= balanceOf computedBalances (Member.id member))
         [alice]
  ∧ calculateSettlements 0 computedBalances [alice] = Some [].
Proof.
  assert (H : Forall (λ member,
                -0.01 <= balanceOf computedBalances (Member.id member))
                [alice]).
  { repeat constructor. vm_compute. discriminate. }
  split; [exact H|].
  exact (calculateSettlements_one_sided 0 computedBalances [alice]
           (or_intror H)).
Defined.

(** The identities in the two lists never change. *)
Lemma settle_ids (s : planner) (c d : Party.t) :
  creditors s !! i s = Some c → debtors s !! j s = Some d →
  Party.id <$> creditors (settle s c d) = Party.id <$> creditors s
  ∧ Party.id <$> debtors (settle s c d) = Party.id <$> debtors s.
Proof.
  intros Hc Hd. unfold settle. destruct (Num.gtb _ _); simpl; [|done].
  by rewrite !fmap_id_insert.
Qed.

Lemma step_ids (s : planner) :
  Party.id <$> creditors (step s) = Party.id <$> creditors s
  ∧ Party.id <$> debtors (step s) = Party.id <$> debtors s.
Proof.
  unfold step.
  destruct (creditors s !! i s) as [c|] eqn:Hc; [|done].
  destruct (debtors s !! j s) as [d|] eqn:Hd; [|done]. simpl.
  by apply settle_ids.
Qed.

Lemma toFixed2_cent : Num.toFixed 2 0.01 == 0.01.
Proof. by vm_compute. Qed.

(** What an iteration appends is an instruction from the debtor to the
    creditor the pointers are at. *)
Lemma step_settlements (s : planner) :
  settlements (step s) = settlements s
  ∨ ∃ c d ins,
      creditors s !! i s = Some c ∧ debtors s !! j s = Some d
      ∧ settlements (step s) = settlements s ++ [ins]
      ∧ Instr.from ins = Party.id d ∧ Instr.to ins = Party.id c
      ∧ 0.01 <= Instr.amount ins ∧ wholeCents (Instr.amount ins).
Proof.
  unfold step.
  destruct (creditors s !! i s) as [c|] eqn:Hc; [|by left].
  destruct (debtors s !! j s) as [d|] eqn:Hd; [|by left]. simpl.
  unfold settle.
  destruct (Num.gtb (Num.min (Party.amount c) (Party.amount d)) 0.01) eqn:Eg;
    [|by left].
  right. exists c, d, (mkInstr d c (Num.min (Party.amount c) (Party.amount d))).
  repeat split; try done; simpl.
  - apply gtb_gt in Eg. rewrite <- toFixed2_cent.
    apply toFixed2_mono. lra.
  - apply toFixed2_cents.
Qed.

Lemma loop_instructions (P : Instr.t → Prop) (cids dids : list string)
    (fuel : nat) (s r : planner) :
  (∀ ins, Instr.from ins ∈ dids → Instr.to ins ∈ cids →
          0.01 <= Instr.amount ins → wholeCents (Instr.amount ins) → P ins) →
  Party.id <$> creditors s = cids → Party.id <$> debtors s = dids →
  Forall P (settlements s) →
  loop fuel s = Some r → Forall P (settlements r).
Proof.
  intros HP. revert s. induction fuel as [|fuel IH]; intros s Hc Hd Hs; simpl;
    destruct (running s) eqn:Hrun; try discriminate; try by intros [= <-].
  destruct (step_ids s) as [Ec Ed].
  apply IH; [congruence|congruence|].
  destruct (step_settlements s) as [->|(c & d & ins & Lc & Ld & -> & Hf & Ht
                                        & Ha & Hw)]; [done|].
  apply Forall_app. split; [done|]. constructor; [|done].
  apply HP; [| |done..].
  - rewrite Hf, <- Hd. apply list_elem_of_fmap_2. by eapply list_elem_of_lookup_2.
  - rewrite Ht, <- Hc. apply list_elem_of_fmap_2. by eapply list_elem_of_lookup_2.
Qed.

(** X8. Every instruction the planner returns is worth a whole number of
    cents, at least one, and goes from a member whose balance is below
    -0.01 to a different member whose balance is above 0.01. *)
Theorem calculateSettlements_instructions (fuel : nat) (b : gmap string Q)
    (members : list Member.t) (l : list Instr.t) :
  calculateSettlements fuel b members = Some l →
  Forall (wellFormed b members) l.
Proof.
  unfold calculateSettlements, run.
  destruct (loop fuel (init b members)) as [r|] eqn:Eloop; [|discriminate].
  intros [= <-].
  apply (loop_instructions _ (Party.id <$> creditors (init b members))
           (Party.id <$> debtors (init b members)) fuel (init b members));
    try done.
  intros ins Hfrom Hto Hamt Hcents.
  rewrite init_debtors, sort_perm in Hfrom.
  rewrite init_creditors, sort_perm in Hto.
  assert (Hd : ∃ debtor, debtor ∈ members ∧ Member.id debtor = Instr.from ins
                         ∧ balanceOf b (Instr.from ins) < -0.01).
  { rewrite debtorsOf_ids in Hfrom.
    apply list_elem_of_fmap in Hfrom as (m & -> & Hm).
    apply list_elem_of_filter in Hm as [Hm%Is_true_true ?].
    exists m. repeat split; [done|]. by apply ltb_lt in Hm. }
  assert (Hc : ∃ creditor, creditor ∈ members
                           ∧ Member.id creditor = Instr.to ins
                           ∧ 0.01 < balanceOf b (Instr.to ins)).
  { rewrite creditorsOf_ids in Hto.
    apply list_elem_of_fmap in Hto as (m & -> & Hm).
    apply list_elem_of_filter in Hm as [Hm%Is_true_true ?].
    exists m. repeat split; [done|]. by apply gtb_gt in Hm. }
  repeat split; try done.
  destruct Hd as (_ & _ & _ & Hlt), Hc as (_ & _ & _ & Hgt).
  intros E. rewrite E in Hlt. lra.
Qed.

Lemma calculateSettlements_instructions_witness :
  calculateSettlements 2 claimedBalances household
  = Some [pays bob alice 30; pays carol alice 30]
  ∧ Forall (wellFormed claimedBalances household)
           [pays bob alice 30; pays carol alice 30].
Proof.
  assert (H : calculateSettlements 2 claimedBalances household
              = Some [pays bob alice 30; pays carol alice 30])
    by (vm_compute; reflexivity).
  split; [exact H|].
  exact (calculateSettlements_instructions 2 claimedBalances household _ H).
Defined.

End Instructions.

(** ** The balance map as a whole *)

Section BalanceMap.
Import Calculate Expense Spec Examples.
Local Open Scope Q_scope.

Lemma wholeCents_zero : wholeCents 0.
Proof. exists 0%Z. reflexivity. Qed.

(** X9. Whatever the expenses, null entries included, every balance
    [calculateBalances] reports is a whole number of cents: its output
    meets the condition under which the settlement planner is shown to
    clear the balances. *)
Theorem calculateBalances_whole_cents
    (expenses : list (option ExpenseData.t)) (members : list Member.t)
    (k : string) :
  wholeCents (balanceOf (calculateBalances expenses members) k).
Proof.
  unfold calculateBalances, balanceOf.
  destruct (aggregate expenses members) as [b|].
  - rewrite lookup_fmap. destruct (b !! k) as [v|]; simpl.
    + apply toFixed2_cents.
    + apply wholeCents_zero.
  - rewrite lookup_empty. apply wholeCents_zero.
Qed.

(** X10. When every expense carries a share map that adds up to its
    amount, the reported balances add up to the payers' own shares, up to
    half a cent per entry: the balances of a household cancel only if no
    payer takes part in their own expense. *)
Theorem calculateBalances_sum (expenses : list ExpenseData.t)
    (members : list Member.t) :
  Forall (λ e, is_Some (ExpenseData.splitDetails e)
               ∧ shareTotal e == Num.or0 (ExpenseData.amount e)) expenses →
  let balances := calculateBalances (Some <$> expenses) members in
  Qabs (sumValues balances - sumOver ownShare expenses)
  <= 0.005 * inject_Z (Z.of_nat (size balances)).
Proof.
  intros Hall. unfold calculateBalances. rewrite aggregate_all_present.
  set (raw := foldl applyExpense (initBalances members) expenses).
  assert (Hraw : sumValues raw == sumOver ownShare expenses).
  { apply (aggregate_sum_own_shares expenses members); [done|].
    apply aggregate_all_present. }
  pose proof (sumValues_fmap_near (Num.toFixed 2) 0.005 raw toFixed2_near)
    as Hr.
  cbv zeta. rewrite map_size_fmap.
  apply Qabs_Qle_condition in Hr. apply Qabs_Qle_condition.
  set (n := inject_Z (Z.of_nat (size raw))) in *.
  set (S := sumValues (Num.toFixed 2 <$> raw)) in *.
  clearbody n S. lra.
Qed.

Lemma calculateBalances_sum_witness :
  Forall (λ e, is_Some (ExpenseData.splitDetails e)
               ∧ shareTotal e == Num.or0 (ExpenseData.amount e)) [rent]
  ∧ ownShare rent == 30
  ∧ Qabs (sumValues (calculateBalances [Some rent] household)
          - sumOver ownShare [rent])
    <= 0.005 * inject_Z (Z.of_nat (size (calculateBalances [Some rent]
                                                            household))).
Proof.
  assert (H : Forall (λ e, is_Some (ExpenseData.splitDetails e)
                           ∧ shareTotal e == Num.or0 (ExpenseData.amount e))
                     [rent]).
  { constructor; [|constructor].
    split; [by eexists|]. vm_compute. reflexivity. }
  split; [exact H|]. split; [vm_compute; reflexivity|].
  exact (calculateBalances_sum [rent] household H).
Defined.

End BalanceMap.

(** ** Absence records: saving, finding, deleting *)

Section AbsenceRecords.
Import Storage Presence Spec Examples.

(** What a successful save has checked and written. *)
Lemma savePresenceRecord_Ok (fresh : string) (now : Z) (data : Absence.data)
    (st st' : store) (rec : Absence.t) :
  savePresenceRecord fresh now data st = (Ok rec, st') →
  rec = recordOf fresh now data
  ∧ (∀ r, r ∈ presence st → Absence.memberId r = Absence.d_memberId data →
          ¬ overlapsStored (Absence.d_startDate data) (endOf data) r)
  ∧ st' = mkStore (members st) (expenses st)
            (match list_find (λ r, Absence.id r = Absence.id rec)
                             (presence st) with
             | Some (index, _) => <[index := rec]> (presence st)
             | None => presence st ++ [rec]
             end)
            (lockedMonths st).
Proof.
  intros Hsave. split; [|split].
  - revert Hsave. unfold savePresenceRecord. cbv zeta.
    case_bool_decide; [discriminate|]. by intros [= <- _].
  - intros r Hr Hm Hover.
    rewrite (some_overlap_throws fresh now st r data Hr) in Hsave by done.
    discriminate.
  - revert Hsave. unfold savePresenceRecord. cbv zeta.
    case_bool_decide; [discriminate|]. by intros [= <- <-].
Qed.

(** X11. A successful save keeps the stored absences of every member
    free of overlaps, whether the record is added or replaces the one with
    its id. *)
Theorem savePresenceRecord_keeps_disjoint (fresh : string) (now : Z)
    (data : Absence.data) (st st' : store) (rec : Absence.t) :
  absencesDisjoint (presence st) →
  savePresenceRecord fresh now data st = (Ok rec, st') →
  absencesDisjoint (presence st').
Proof.
  intros Hdisj Hsave.
  destruct (savePresenceRecord_Ok _ _ _ _ _ _ Hsave) as (Hrec & Hnew & ->).
  simpl.
  assert (Hl : ∀ r, r ∈ presence st →
                 Absence.memberId rec = Absence.memberId r →
                 ¬ overlapsStored (Absence.startDate rec)
                     (default (Absence.startDate rec) (Absence.endDate rec)) r).
  { intros r Hr Hm. rewrite Hrec in *. simpl in *. by apply Hnew. }
  assert (Hr : ∀ r, r ∈ presence st →
                 Absence.memberId r = Absence.memberId rec →
                 ¬ overlapsStored (Absence.startDate r)
                     (default (Absence.startDate r) (Absence.endDate r)) rec).
  { intros r Hr Hm [H1 H2]. apply (Hl r Hr); [done|]. by split. }
  clear Hnew Hsave. generalize dependent rec. intros rec _ Hl Hr.
  intros i j r1 r2 Hij H1 H2 Hm.
  destruct (list_find _ (presence st)) as [[index x]|] eqn:Efind.
  - apply list_lookup_insert_Some in H1 as [(-> & <- & ?)|[? H1]];
      apply list_lookup_insert_Some in H2 as [(? & <- & ?)|[? H2]]; try done.
    + apply Hl; [|done]. by eapply list_elem_of_lookup_2.
    + apply Hr; [|done]. by eapply list_elem_of_lookup_2.
    + by apply (Hdisj i j).
  - apply lookup_app_Some in H1 as [H1|[? H1]];
      apply lookup_app_Some in H2 as [H2|[? H2]].
    + by apply (Hdisj i j).
    + apply list_lookup_singleton_Some in H2 as [_ <-].
      apply Hr; [|done]. by eapply list_elem_of_lookup_2.
    + apply list_lookup_singleton_Some in H1 as [_ <-].
      apply Hl; [|done]. by eapply list_elem_of_lookup_2.
    + apply list_lookup_singleton_Some in H1 as [? _].
      apply list_lookup_singleton_Some in H2 as [? _]. lia.
Qed.

Lemma savePresenceRecord_keeps_disjoint_witness :
  let carolAway := Absence.mkData None "carol" 2 None "Visit" in
  let stored := Absence.mk "fresh" "carol" 2 (Some 2%Z) "Visit" 9 9 in
  absencesDisjoint (presence withRent)
  ∧ savePresenceRecord "fresh" 9 carolAway withRent
    = (Ok stored,
       mkStore household {[ "1970-01" := [rent] ]} [bobAway; stored] [])
  ∧ absencesDisjoint [bobAway; stored].
Proof.
  intros carolAway stored.
  assert (Hd : absencesDisjoint (presence withRent)).
  { intros [|i] [|j] r1 r2; simpl; try done;
      rewrite ?lookup_nil; done. }
  assert (Hs : savePresenceRecord "fresh" 9 carolAway withRent
               = (Ok stored,
                  mkStore household {[ "1970-01" := [rent] ]}
                          [bobAway; stored] []))
    by (vm_compute; reflexivity).
  split; [exact Hd|]. split; [exact Hs|].
  exact (savePresenceRecord_keeps_disjoint "fresh" 9 carolAway withRent _ _
           Hd Hs).
Defined.

(** X12. A record that has just been saved is the one [getById] returns
    for its id. *)
Theorem savePresenceRecord_then_getById (fresh : string) (now : Z)
    (data : Absence.data) (st st' : store) (rec : Absence.t) :
  savePresenceRecord fresh now data st = (Ok rec, st') →
  getById (Absence.id rec) st' = Some rec.
Proof.
  intros Hsave.
  destruct (savePresenceRecord_Ok _ _ _ _ _ _ Hsave) as (_ & _ & ->).
  unfold getById, getAll, getPresenceRecords. simpl.
  destruct (list_find _ (presence st)) as [[index x]|] eqn:Efind.
  - apply list_find_Some in Efind as (Hx & _ & Hfirst).
    assert (E : list_find (λ record, Absence.id record = Absence.id rec)
                  (<[index := rec]> (presence st)) = Some (index, rec)).
    { apply list_find_Some. split; [|split; [done|]].
      - apply list_lookup_insert_eq. by apply lookup_lt_Some in Hx.
      - intros j y Hy Hj. rewrite list_lookup_insert_ne in Hy by lia.
        by apply (Hfirst j). }
    by rewrite E.
  - apply list_find_None in Efind.
    assert (E : list_find (λ record, Absence.id record = Absence.id rec)
                  (presence st ++ [rec])
                = Some (length (presence st), rec)).
    { apply list_find_Some. split; [|split; [done|]].
      - by rewrite lookup_app_r, Nat.sub_diag by lia.
      - intros j y Hy Hj. rewrite lookup_app_l in Hy by done.
        apply (proj1 (Forall_forall _ _) Efind y).
        by eapply list_elem_of_lookup_2. }
    by rewrite E.
Qed.

Lemma savePresenceRecord_then_getById_witness :
  let carolAway := Absence.mkData None "carol" 2 None "Visit" in
  let stored := Absence.mk "fresh" "carol" 2 (Some 2%Z) "Visit" 9 9 in
  let st' := mkStore household {[ "1970-01" := [rent] ]} [bobAway; stored] [] in
  savePresenceRecord "fresh" 9 carolAway withRent = (Ok stored, st')
  ∧ getById "fresh" st' = Some stored.
Proof.
  intros carolAway stored st'.
  assert (Hs : savePresenceRecord "fresh" 9 carolAway withRent
               = (Ok stored, st'))
    by (vm_compute; reflexivity).
  split; [exact Hs|].
  exact (savePresenceRecord_then_getById "fresh" 9 carolAway withRent _ _ Hs).
Defined.

Lemma filter_all {A : Type} (P : A → Prop) `{∀ x, Decision (P x)}
    (l : list A) :
  Forall P l → filter P l = l.
Proof.
  induction 1 as [|x l Hx _ IH]; [done|]. by rewrite filter_cons_True, IH.
Qed.

(** X13. Saving a record under an id no stored record has and deleting
    it again leaves the store as it was. *)
Theorem save_then_deletePresenceRecord (fresh : string) (now : Z)
    (data : Absence.data) (st st' : store) (rec : Absence.t) :
  getById (idOr (Absence.d_id data) fresh) st = None →
  savePresenceRecord fresh now data st = (Ok rec, st') →
  deletePresenceRecord (Absence.id rec) st' = (Ok true, st).
Proof.
  intros Hnone Hsave.
  destruct (savePresenceRecord_Ok _ _ _ _ _ _ Hsave) as (Hrec & _ & ->).
  assert (Hid : Absence.id rec = idOr (Absence.d_id data) fresh)
    by (by rewrite Hrec).
  unfold getById, getAll, getPresenceRecords in Hnone. rewrite <- Hid in Hnone.
  destruct (list_find _ (presence st)) as [[index x]|] eqn:Efind;
    [discriminate|].
  apply list_find_None in Efind.
  unfold deletePresenceRecord, getPresenceRecords. simpl.
  rewrite filter_app, filter_cons_False, filter_nil, app_nil_r
    by (intros H; by apply H).
  rewrite (filter_all _ _ Efind). by destruct st.
Qed.

Lemma save_then_deletePresenceRecord_witness :
  let carolAway := Absence.mkData None "carol" 2 None "Visit" in
  let stored := Absence.mk "fresh" "carol" 2 (Some 2%Z) "Visit" 9 9 in
  let st' := mkStore household {[ "1970-01" := [rent] ]} [bobAway; stored] [] in
  getById "fresh" withRent = None
  ∧ savePresenceRecord "fresh" 9 carolAway withRent = (Ok stored, st')
  ∧ deletePresenceRecord "fresh" st' = (Ok true, withRent).
Proof.
  intros carolAway stored st'.
  assert (Hn : getById (idOr (Absence.d_id carolAway) "fresh") withRent = None)
    by (vm_compute; reflexivity).
  assert (Hs : savePresenceRecord "fresh" 9 carolAway withRent
               = (Ok stored, st'))
    by (vm_compute; reflexivity).
  split; [exact Hn|]. split; [exact Hs|].
  exact (save_then_deletePresenceRecord "fresh" 9 carolAway withRent _ _
           Hn Hs).
Defined.

Lemma list_find_filter {A : Type} (P Q : A → Prop)
    `{∀ x, Decision (P x)} `{∀ x, Decision (Q x)} (l : list A) :
  (∀ x, P x → Q x) →
  snd <$> list_find P (filter Q l) = snd <$> list_find P l.
Proof.
  intros HPQ. induction l as [|x l IH]; [done|].
  rewrite filter_cons. destruct (decide (Q x)) as [Hq|Hq]; simpl.
  - destruct (decide (P x)); [done|].
    rewrite <- !option_fmap_compose. simpl.
    destruct (list_find P (filter Q l)) as [[]|],
             (list_find P l) as [[]|]; simpl in *; congruence.
  - destruct (decide (P x)) as [Hp|Hp]; [by apply HPQ in Hp|].
    rewrite <- option_fmap_compose. rewrite IH.
    by destruct (list_find P l) as [[]|].
Qed.

(** X14. Deleting an absence removes every record with that id and
    nothing else: the id is no longer found, every other id is found as
    before, and members, expenses and locks are untouched. *)
Theorem deleteAbsence_removes (recordId : string) (st : store) :
  ∃ st', deleteAbsence recordId st = (Ok true, st')
    ∧ getById recordId st' = None
    ∧ (∀ other, other ≠ recordId → getById other st' = getById other st)
    ∧ members st' = members st ∧ expenses st' = expenses st
    ∧ lockedMonths st' = lockedMonths st.
Proof.
  eexists. split; [reflexivity|]. simpl.
  unfold getById, getAll, getPresenceRecords. simpl.
  split; [|split; [|done]].
  - destruct (list_find _ _) as [[index x]|] eqn:Efind; [|done].
    apply list_find_Some in Efind as (Hx & Hid & _).
    apply list_elem_of_lookup_2, list_elem_of_filter in Hx as [Hne _]. done.
  - intros other Hother. apply list_find_filter. by intros x ->.
Qed.

Lemma deleteAbsence_removes_witness :
  ∃ st', deleteAbsence "r1" withRent = (Ok true, st')
         ∧ presence st' = []
         ∧ getById "r1" st' = None.
Proof.
  destruct (deleteAbsence_removes "r1" withRent) as (st' & Hdel & Hnone & _).
  exists st'. split; [exact Hdel|]. split; [|exact Hnone].
  injection Hdel as <-. reflexivity.
Defined.

End AbsenceRecords.

(** ** Who is present *)

Section PresentMembers.
Import Storage Presence Spec Examples.

Lemma filter_ext_in {A : Type} (P Q : A → Prop)
    `{∀ x, Decision (P x)} `{∀ x, Decision (Q x)} (l : list A) :
  (∀ x, x ∈ l → (P x ↔ Q x)) → filter P l = filter Q l.
Proof.
  induction l as [|x l IH]; intros Hext; [done|].
  rewrite !filter_cons.
  assert (Hx : P x ↔ Q x) by (apply Hext; left).
  rewrite IH by (intros y Hy; apply Hext; by right).
  destruct (decide (P x)), (decide (Q x)); tauto || done.
Qed.

Lemma getAbsentMembers_elem (date : Z) (st : store) (member : Member.t) :
  member ∈ getAbsentMembers date st
  ↔ member ∈ members st ∧ isAbsent (Member.id member) date st = true.
Proof.
  unfold getAbsentMembers, isAbsent, getAll, getMembers, getPresenceRecords.
  rewrite list_elem_of_filter, Is_true_true. tauto.
Qed.

Lemma getPresentMembers_filter (date : Z) (st : store) :
  Presence.getPresentMembers date st
  = filter (λ member, ¬ Is_true (isAbsent (Member.id member) date st))
           (members st).
Proof.
  unfold Presence.getPresentMembers, getMembers. cbv zeta.
  apply filter_ext_in. intros m Hm.
  assert (H : Is_true (existsb (λ absent, bool_decide (Member.id absent
                                                       = Member.id m))
                               (getAbsentMembers date st))
              ↔ Is_true (isAbsent (Member.id m) date st)); [|tauto].
  rewrite !Is_true_true, existsb_exists. split.
  - intros (a & Ha%list_elem_of_In & Hid%bool_decide_eq_true).
    apply getAbsentMembers_elem in Ha as [_ Ha]. by rewrite <- Hid.
  - intros Habs. exists m. split; [|by apply bool_decide_eq_true].
    apply list_elem_of_In, getAbsentMembers_elem. done.
Qed.

Lemma existsb_ext_eq {A : Type} (f g : A → bool) (l : list A) :
  (∀ x, f x = g x) → existsb f l = existsb g l.
Proof. intros H. induction l as [|x l IH]; simpl; [done|]. by rewrite H, IH. Qed.

(** X15. On any day the members split into the absent and the present
    ones: a member is present exactly when no absence record covers the
    day, the two lists together are the member list, and the members
    module computes the same present list as the presence module. *)
Theorem getPresentMembers_complement (date : Z) (st : store) :
  (∀ member, member ∈ Presence.getPresentMembers date st
             ↔ member ∈ members st
               ∧ isAbsent (Member.id member) date st = false)
  ∧ getAbsentMembers date st ++ Presence.getPresentMembers date st
    ≡ₚ members st
  ∧ Members.getPresentMembers date st = Presence.getPresentMembers date st.
Proof.
  rewrite getPresentMembers_filter. split; [|split].
  - intros m. rewrite list_elem_of_filter, Is_true_false. tauto.
  - unfold getAbsentMembers, isAbsent, getAll, getMembers, getPresenceRecords.
    apply filter_app_complement.
  - unfold Members.getPresentMembers, Members.getAll, getMembers,
      getPresenceRecords, isAbsent, getAll, getPresenceRecords. cbv zeta.
    apply filter_ext_in. intros m _.
    rewrite (existsb_ext_eq _ (covers (Member.id m) date)); [done|].
    intros r. unfold covers.
    destruct (decide (Absence.memberId r = Member.id m)) as [E|E].
    + rewrite (bool_decide_eq_true_2 _ E).
      rewrite (bool_decide_eq_false_2 (Absence.memberId r ≠ Member.id m))
        by (intros H; by apply H).
      reflexivity.
    + rewrite (bool_decide_eq_false_2 _ E).
      rewrite (bool_decide_eq_true_2 (Absence.memberId r ≠ Member.id m))
        by done.
      reflexivity.
Qed.

Lemma getPresentMembers_complement_witness :
  isAbsent "bob" 3 withRent = true
  ∧ isAbsent "carol" 3 withRent = false
  ∧ carol ∈ Presence.getPresentMembers 3 withRent
  ∧ Members.getPresentMembers 3 withRent = [alice; carol].
Proof.
  assert (Hc : carol ∈ members withRent ∧ isAbsent "carol" 3 withRent = false).
  { split; [by do 2 right; left|vm_compute; reflexivity]. }
  split; [vm_compute; reflexivity|]. split; [exact (proj2 Hc)|].
  split.
  - exact (proj2 (proj1 (getPresentMembers_complement 3 withRent) carol) Hc).
  - rewrite (proj2 (proj2 (getPresentMembers_complement 3 withRent))).
    vm_compute. reflexivity.
Defined.

End PresentMembers.

(** ** Locked months and saved expenses *)

Section Locks.
Import Storage Expense Spec Examples.

Lemma lockMonth_locked (monthKey : string) (st : store) :
  monthKey ∈ getLockedMonths (lockMonth monthKey st).2.
Proof.
  unfold lockMonth, getLockedMonths. cbv zeta.
  case_bool_decide; simpl; [done|]. apply elem_of_app. right. left.
Qed.

(** X16. Once a month is locked, no expense dated in it can be saved:
    [saveExpense] throws and leaves the store as it is. *)
Theorem lockMonth_blocks_saveExpense (monthKeyOf : Z → string)
    (fresh : string) (today d : Z) (expense : ExpenseData.t) (st : store) :
  ExpenseData.date expense = Some d →
  let locked := (lockMonth (monthKeyOf d) st).2 in
  ∃ msg, saveExpense monthKeyOf fresh today expense locked
         = (Throw msg, locked).
Proof.
  intros Hd locked. unfold saveExpense.
  destruct (_ || _); [by eexists|]. cbv zeta.
  rewrite Hd. simpl. rewrite bool_decide_eq_true_2; [by eexists|].
  apply lockMonth_locked.
Qed.

Lemma lockMonth_blocks_saveExpense_witness :
  let monthKeyOf := λ _ : Z, "1970-01" in
  let locked := mkStore household {[ "1970-01" := [rent] ]} [bobAway]
                        ["1970-01"] in
  ExpenseData.date dinner = Some 3%Z
  ∧ (lockMonth "1970-01" withRent).2 = locked
  ∧ ∃ msg, saveExpense monthKeyOf "e9" 7 dinner locked = (Throw msg, locked).
Proof.
  intros monthKeyOf locked.
  assert (Hd : ExpenseData.date dinner = Some 3%Z) by reflexivity.
  split; [exact Hd|]. split; [vm_compute; reflexivity|].
  exact (lockMonth_blocks_saveExpense monthKeyOf "e9" 7 3 dinner withRent Hd).
Defined.

(** X17. Locking a month that was open and unlocking it again restores
    the store; unlocking removes the month however often it is listed. *)
Theorem lock_then_unlockMonth (monthKey : string) (st : store) :
  (monthKey ∉ getLockedMonths (unlockMonth monthKey st).2)
  ∧ (monthKey ∉ getLockedMonths st →
     unlockMonth monthKey (lockMonth monthKey st).2
     = (Ok (getLockedMonths st), st)).
Proof.
  split.
  - unfold unlockMonth, getLockedMonths. simpl.
    intros [Hne _]%list_elem_of_filter. done.
  - intros Hopen. unfold lockMonth, unlockMonth, getLockedMonths in *.
    cbv zeta. rewrite bool_decide_eq_false_2 by done. simpl.
    rewrite filter_app, filter_cons_False, filter_nil, app_nil_r
      by (intros H; by apply H).
    rewrite filter_all; [by destruct st|].
    apply Forall_forall. by intros x Hx ->.
Qed.

Lemma lock_then_unlockMonth_witness :
  ("1970-01" ∉ getLockedMonths withRent)
  ∧ unlockMonth "1970-01" (lockMonth "1970-01" withRent).2
    = (Ok [], withRent).
Proof.
  assert (H : "1970-01" ∉ getLockedMonths withRent)
    by (simpl; apply not_elem_of_nil).
  split; [exact H|].
  exact (proj2 (lock_then_unlockMonth "1970-01" withRent) H).
Defined.

(** What a successful [saveExpense] has checked and written. *)
Lemma saveExpense_Ok (monthKeyOf : Z → string) (fresh : string) (today : Z)
    (expense saved : ExpenseData.t) (st st' : store) :
  saveExpense monthKeyOf fresh today expense st = (Ok saved, st') →
  let monthKey := monthKeyFor monthKeyOf (ExpenseData.date expense) in
  (monthKey ∉ getLockedMonths st)
  ∧ ExpenseData.id saved = fresh
  ∧ ExpenseData.paidBy saved = ExpenseData.paidBy expense
  ∧ ExpenseData.splitBetween saved = ExpenseData.splitBetween expense
  ∧ ExpenseData.amount saved = ExpenseData.amount expense
  ∧ members st' = members st ∧ presence st' = presence st
  ∧ lockedMonths st' = lockedMonths st
  ∧ expenses st'
    = <[monthKey := getMonthExpenses monthKey st ++ [saved]]> (expenses st).
Proof.
  unfold saveExpense. destruct (_ || _); [discriminate|]. cbv zeta.
  case_bool_decide as Hlock; [discriminate|].
  intros [= <- <-]. done.
Qed.

(** X18. A complete expense dated in a month that is not locked is
    accepted: it is stored under the fresh id at the end of its month,
    and the other months are as before. *)
Theorem saveExpense_appends (monthKeyOf : Z → string) (fresh : string)
    (today d : Z) (expense : ExpenseData.t) (st : store) :
  complete expense →
  ExpenseData.date expense = Some d →
  monthKeyOf d ∉ getLockedMonths st →
  ∃ saved st',
    saveExpense monthKeyOf fresh today expense st = (Ok saved, st')
    ∧ ExpenseData.id saved = fresh
    ∧ ExpenseData.date saved = Some d
    ∧ getMonthExpenses (monthKeyOf d) st'
      = getMonthExpenses (monthKeyOf d) st ++ [saved]
    ∧ ∀ other, other ≠ monthKeyOf d →
        getMonthExpenses other st' = getMonthExpenses other st.
Proof.
  intros (Ht & (a & Ha & Hnz) & Hp & [sb Hsb]) Hd Hopen.
  unfold saveExpense. rewrite Ht, Ha, Hp, Hsb, Hd. simpl.
  assert (Hz : Qeq_bool a 0 = false).
  { apply not_true_is_false. by rewrite Qeq_bool_iff. }
  rewrite Hz. simpl. rewrite bool_decide_eq_false_2 by done.
  eexists _, _. split; [reflexivity|]. simpl.
  split; [done|]. split; [done|].
  unfold getMonthExpenses, getExpenses. simpl. split.
  - by rewrite lookup_insert_eq.
  - intros other Hother. by rewrite lookup_insert_ne.
Qed.

Lemma saveExpense_appends_witness :
  let monthKeyOf := λ _ : Z, "1970-01" in
  complete dinner
  ∧ ExpenseData.date dinner = Some 3%Z
  ∧ (monthKeyOf 3%Z ∉ getLockedMonths withRent)
  ∧ ∃ saved st',
      saveExpense monthKeyOf "e9" 7 dinner withRent = (Ok saved, st')
      ∧ ExpenseData.id saved = "e9"
      ∧ getMonthExpenses "1970-01" st' = [rent; saved].
Proof.
  intros monthKeyOf.
  assert (Hc : complete dinner).
  { split; [done|]. split; [|split; [done|by eexists]].
    exists 60%Q. split; [done|]. by vm_compute. }
  assert (Hd : ExpenseData.date dinner = Some 3%Z) by reflexivity.
  assert (Ho : monthKeyOf 3%Z ∉ getLockedMonths withRent)
    by (simpl; apply not_elem_of_nil).
  split; [exact Hc|]. split; [exact Hd|]. split; [exact Ho|].
  destruct (saveExpense_appends monthKeyOf "e9" 7 3 dinner withRent Hc Hd Ho)
    as (saved & st' & Hs & Hid & _ & Hm & _).
  exists saved, st'. split; [exact Hs|]. split; [exact Hid|]. exact Hm.
Defined.

End Locks.

(** ** Removing a member *)

Section MemberRemoval.
Import Storage Expense Spec Examples.

Lemma existsb_filter_nil {A : Type} (f : A → bool) (l : list A) :
  existsb f l = false ↔ filter (λ x, Is_true (f x)) l = [].
Proof.
  induction l as [|x l IH]; simpl; [done|].
  rewrite filter_cons, orb_false_iff, IH.
  destruct (decide (Is_true (f x))) as [H|H].
  - apply Is_true_true in H. rewrite H. split; [by intros [? _]|done].
  - apply Is_true_false in H. rewrite H. tauto.
Qed.

Lemma filter_none {A : Type} (P : A → Prop) `{∀ x, Decision (P x)}
    (l : list A) :
  (∀ x, x ∈ l → ¬ P x) → filter P l = [].
Proof.
  induction l as [|x l IH]; intros Hl; [done|].
  rewrite filter_cons_False by (apply Hl; left).
  apply IH. intros y Hy. apply Hl. by right.
Qed.

Lemma hasExpenses_getByMember (memberId : string) (st : store) :
  hasExpenses memberId st = false ↔ Expense.getByMember memberId None st = [].
Proof.
  unfold hasExpenses, Expense.getByMember. cbv zeta.
  generalize (map_to_list (getExpenses st)). intros l.
  induction l as [|[k es] l IH]; [done|].
  change (existsb (involves memberId) es
          || existsb (λ kv : string * list ExpenseData.t,
                        existsb (refersTo memberId) kv.2) l = false
          ↔ filter (λ expense, Is_true (involves memberId expense))
                   (es ++ concat (l.*2)) = []).
  rewrite filter_app, orb_false_iff, existsb_filter_nil. split.
  - intros [-> H]. by apply IH in H.
  - intros [-> H]%app_eq_nil. split; [done|]. by apply IH.
Qed.

(** X19. A member can be deleted exactly when [getByMember] finds no
    expense, in any month, that the member paid or takes part in. *)
Theorem deleteMember_iff_no_expenses (memberId : string) (st : store) :
  (Expense.getByMember memberId None st = [] →
     (deleteMember memberId st).1 = Ok true)
  ∧ (Expense.getByMember memberId None st ≠ [] →
     deleteMember memberId st
     = (Throw "Cannot delete member with existing expenses", st)).
Proof.
  unfold deleteMember. split.
  - intros H%hasExpenses_getByMember. by rewrite H.
  - intros H. destruct (hasExpenses memberId st) eqn:E; [done|].
    by apply hasExpenses_getByMember in E.
Qed.

Lemma deleteMember_iff_no_expenses_witness :
  Expense.getByMember "bob" None absenceOnly = []
  ∧ (deleteMember "bob" absenceOnly).1 = Ok true
  ∧ Expense.getByMember "bob" None withRent ≠ []
  ∧ deleteMember "bob" withRent
    = (Throw "Cannot delete member with existing expenses", withRent).
Proof.
  assert (H1 : Expense.getByMember "bob" None absenceOnly = [])
    by (vm_compute; reflexivity).
  assert (H2 : Expense.getByMember "bob" None withRent ≠ [])
    by (vm_compute; discriminate).
  split; [exact H1|]. split; [|split; [exact H2|]].
  - exact (proj1 (deleteMember_iff_no_expenses "bob" absenceOnly) H1).
  - exact (proj2 (deleteMember_iff_no_expenses "bob" withRent) H2).
Defined.

(** X20. After a deletion nothing refers to the member any more: no
    member record, no absence record and no expense; the other members and
    their absences are found as before. *)
Theorem deleteMember_forgets (memberId : string) (st st' : store) :
  deleteMember memberId st = (Ok true, st') →
  Members.getById memberId st' = None
  ∧ Presence.getByMember memberId st' = []
  ∧ Expense.getByMember memberId None st' = []
  ∧ ∀ other, other ≠ memberId →
      Members.getById other st' = Members.getById other st
      ∧ Presence.getByMember other st' = Presence.getByMember other st.
Proof.
  unfold deleteMember. destruct (hasExpenses memberId st) eqn:E;
    [discriminate|]. cbv zeta. intros [= <-].
  unfold Members.getById, Members.getAll, Presence.getByMember,
    Presence.getAll, getMembers, getPresenceRecords. simpl.
  split; [|split; [|split]].
  - destruct (list_find _ _) as [[index x]|] eqn:Efind; [|done].
    apply list_find_Some in Efind as (Hx & Hid & _).
    apply list_elem_of_lookup_2, list_elem_of_filter in Hx as [Hne _]. done.
  - rewrite list_filter_filter. apply filter_none.
    intros r _ [H1 H2]. done.
  - by apply hasExpenses_getByMember in E.
  - intros other Hother. split.
    + apply list_find_filter. by intros x ->.
    + rewrite list_filter_filter. apply filter_ext_in.
      intros r _. split; [tauto|]. intros H. split; [done|]. by rewrite H.
Qed.

Lemma deleteMember_forgets_witness :
  deleteMember "bob" absenceOnly = (Ok true, mkStore [alice] ∅ [] [])
  ∧ Members.getById "bob" (mkStore [alice] ∅ [] []) = None
  ∧ Members.getById "alice" (mkStore [alice] ∅ [] []) = Some alice.
Proof.
  assert (H : deleteMember "bob" absenceOnly
              = (Ok true, mkStore [alice] ∅ [] []))
    by (vm_compute; reflexivity).
  split; [exact H|].
  split; [exact (proj1 (deleteMember_forgets "bob" absenceOnly _ H))|].
  vm_compute. reflexivity.
Defined.

(** X21. Saving an expense ties its payer and every participant to the
    household: from then on [deleteMember] refuses each of them. *)
Theorem saveExpense_protects_members (monthKeyOf : Z → string)
    (fresh : string) (today : Z) (expense saved : ExpenseData.t)
    (st st' : store) (memberId : string) :
  saveExpense monthKeyOf fresh today expense st = (Ok saved, st') →
  ExpenseData.paidBy expense = memberId
  ∨ (∃ sb, ExpenseData.splitBetween expense = Some sb ∧ memberId ∈ sb) →
  deleteMember memberId st'
  = (Throw "Cannot delete member with existing expenses", st').
Proof.
  intros Hsave Hin.
  destruct (saveExpense_Ok _ _ _ _ _ _ _ Hsave)
    as (_ & _ & Hp & Hsb & _ & _ & _ & _ & He).
  unfold deleteMember.
  assert (H : hasExpenses memberId st' = true); [|by rewrite H].
  apply hasExpenses_spec.
  set (monthKey := monthKeyFor monthKeyOf (ExpenseData.date expense)) in *.
  exists monthKey, (getMonthExpenses monthKey st ++ [saved]), saved.
  split; [rewrite He; apply lookup_insert_eq|].
  split; [apply elem_of_app; right; left|].
  by rewrite Hp, Hsb.
Qed.

Lemma saveExpense_protects_members_witness :
  let monthKeyOf := λ _ : Z, "1970-01" in
  let saved :=
    ExpenseData.mk "e9" "Taxi" (Some 40%Q) "bob" "equal" (Some ["bob"])
                   (Some ∅) "Transport" (Some 3%Z) "" in
  let st' := mkStore [alice; bob] {[ "1970-01" := [saved] ]} [bobAway] [] in
  saveExpense monthKeyOf "e9" 7 taxi absenceOnly = (Ok saved, st')
  ∧ (deleteMember "bob" absenceOnly).1 = Ok true
  ∧ deleteMember "bob" st'
    = (Throw "Cannot delete member with existing expenses", st').
Proof.
  intros monthKeyOf saved st'.
  assert (Hsave : saveExpense monthKeyOf "e9" 7 taxi absenceOnly
                  = (Ok saved, st'))
    by (vm_compute; reflexivity).
  split; [exact Hsave|]. split; [reflexivity|].
  exact (saveExpense_protects_members monthKeyOf "e9" 7 taxi saved
           absenceOnly st' "bob" Hsave (or_introl eq_refl)).
Defined.

End MemberRemoval.

(** ** Shares after the absent members are taken out *)

Section AbsentShares.
Import Storage Calculate Expense Spec Examples.
Local Open Scope Q_scope.

Lemma sum_addTo_all (v : Q) (l : list string) (acc : gmap string Q) :
  sumValues (foldl (λ d k, addTo d k v) acc l)
  == sumValues acc + v * inject_Z (Z.of_nat (length l)).
Proof.
  revert acc. induction l as [|k l IH]; intros acc.
  - simpl. change (inject_Z (Z.of_nat 0)) with 0. lra.
  - cbn [foldl length]. rewrite IH, sumValues_addTo, length_Q_succ. lra.
Qed.

Lemma length_Q_pos {A : Type} (l : list A) :
  l ≠ [] → 0 < inject_Z (Z.of_nat (length l)).
Proof.
  intros Hl. change 0 with (inject_Z 0). rewrite <- Zlt_Qlt.
  destruct l; simpl in *; [done|lia].
Qed.

(** The redistribution brings the shares to the whole exactly when they
    were off by more than the tolerance, and leaves them alone otherwise. *)
Lemma redistribute_total (whole tolerance : Q) (present : list string)
    (details : gmap string Q) :
  present ≠ [] → 0 <= tolerance →
  Qabs (whole - sumValues (redistribute whole tolerance present details))
  <= tolerance.
Proof.
  intros Hne Htol. unfold redistribute.
  destruct (Num.gtb (Qabs (whole - sumValues details)) tolerance) eqn:Eg;
    cbn [andb].
  - rewrite bool_decide_eq_true_2 by (destruct present; simpl; [done|lia]).
    rewrite sum_addTo_all.
    pose proof (length_Q_pos present Hne) as Hn.
    set (n := inject_Z (Z.of_nat (length present))) in *.
    assert (E : whole - (sumValues details
                         + (whole - sumValues details) / n * n) == 0)
      by (field; lra).
    rewrite E. apply Qabs_Qle_condition. lra.
  - by apply gtb_le in Eg.
Qed.

Lemma presentOf_nonempty (absent : list string) (paidBy : string)
    (participants : list string) :
  Num.truthy paidBy = true ∨ (∃ p, p ∈ participants ∧ p ∉ absent) →
  presentOf absent paidBy participants ≠ [].
Proof.
  intros Hsome. unfold presentOf.
  destruct (filter (λ memberId, memberId ∉ absent) participants)
    as [|p l] eqn:Ef; simpl; [|by destruct (Num.truthy paidBy)].
  destruct Hsome as [->|(p & Hp & Ha)]; [done|].
  assert (H : p ∈ filter (λ memberId, memberId ∉ absent) participants)
    by (by apply list_elem_of_filter).
  rewrite Ef in H. by apply elem_of_nil in H.
Qed.

Lemma presentOf_NoDup (absent : list string) (paidBy : string)
    (participants : list string) :
  NoDup participants → NoDup (presentOf absent paidBy participants).
Proof.
  intros Hnd. unfold presentOf.
  destruct (filter (λ memberId, memberId ∉ absent) participants)
    as [|p l] eqn:Ef; simpl.
  - destruct (Num.truthy paidBy); [apply NoDup_singleton|apply NoDup_nil_2].
  - rewrite <- Ef. by apply NoDup_filter.
Qed.



(** X23. For a custom or a percentage split the shares of the absent
    members are dropped and what is then missing is spread evenly over the
    participants present, so that the stored shares add up to the amount
    within 0.01, or to 100 within 0.1. *)
Theorem processAbsentMembers_redistributes (st : store)
    (expenseData : ExpenseData.t) (d : Z) (participants : list string)
    (details : gmap string Q) :
  ExpenseData.date expenseData = Some d →
  ExpenseData.splitBetween expenseData = Some participants →
  ExpenseData.splitDetails expenseData = Some details →
  Num.truthy (ExpenseData.paidBy expenseData) = true
  ∨ (∃ p, p ∈ participants ∧ p ∉ absentIds d st) →
  let shares := storedSplitDetails (processAbsentMembers st expenseData) in
  (ExpenseData.splitType expenseData = "custom"%string →
     Qabs (Num.or0 (ExpenseData.amount expenseData) - sumValues shares)
     <= 0.01)
  ∧ (ExpenseData.splitType expenseData = "percentage"%string →
       Qabs (100 - sumValues shares) <= 0.1).
Proof.
  intros Hd Hsb Hsd Hsome shares.
  pose proof (presentOf_nonempty _ _ _ Hsome) as Hne.
  unfold shares, processAbsentMembers. rewrite Hd, Hsb, Hsd.
  fold (absentIds d st). split; intros Hty; rewrite Hty.
  - rewrite (bool_decide_eq_false_2 ("custom" = "equal")%string) by done.
    rewrite (bool_decide_eq_true_2 ("custom" = "custom")%string) by done.
    unfold storedSplitDetails.
    cbn [ExpenseData.with_split ExpenseData.splitDetails default].
    by apply redistribute_total.
  - rewrite (bool_decide_eq_false_2 ("percentage" = "equal")%string) by done.
    rewrite (bool_decide_eq_false_2 ("percentage" = "custom")%string) by done.
    rewrite (bool_decide_eq_true_2 ("percentage" = "percentage")%string)
      by done.
    unfold storedSplitDetails.
    cbn [ExpenseData.with_split ExpenseData.splitDetails default].
    by apply redistribute_total.
Qed.

Lemma processAbsentMembers_redistributes_witness :
  let party :=
    ExpenseData.mk "e5" "Party" (Some 90%Q) "alice" "custom"
                   (Some ["alice"; "bob"; "carol"])
                   (Some {[ "alice" := 30; "bob" := 40; "carol" := 20 ]})
                   "Fun" (Some 3%Z) "" in
  storedSplitDetails (processAbsentMembers withRent party)
  = {[ "alice" := 30 + (90 - 50) / 2; "carol" := 20 + (90 - 50) / 2 ]}
  ∧ Qabs (90 - sumValues (storedSplitDetails
                            (processAbsentMembers withRent party))) <= 0.01.
Proof.
  intros party.
  split; [vm_compute; reflexivity|].
  exact (proj1 (processAbsentMembers_redistributes withRent party 3
                  ["alice"; "bob"; "carol"] _ eq_refl eq_refl eq_refl
                  (or_introl eq_refl)) eq_refl).
Defined.

End AbsentShares.

(** ** Reports *)

Section Reports.
Import Calculate Spec Examples.
Local Open Scope Q_scope.

Lemma pow10_pos (digits : nat) : 0 < Num.pow10 digits.
Proof.
  unfold Num.pow10. change 0 with (inject_Z 0). rewrite <- Zlt_Qlt.
  apply Z.pow_pos_nonneg; lia.
Qed.

Lemma validateAndRoundAmount_scaled (amount : Q) (decimalPlaces : nat) :
  0 <= amount →
  ∃ z : Z,
    (0 <= z)%Z
    ∧ validateAndRoundAmount amount decimalPlaces
      = inject_Z z / Num.pow10 decimalPlaces
    ∧ amount * Num.pow10 decimalPlaces - (1 # 2) <= inject_Z z
    ∧ inject_Z z <= amount * Num.pow10 decimalPlaces + (1 # 2).
Proof.
  intros Hpos. unfold validateAndRoundAmount.
  assert (Hlt : Num.ltb amount 0 = false) by (by apply ltb_ge).
  rewrite Hlt. cbv zeta.
  pose proof (pow10_pos decimalPlaces) as Hm.
  set (m := Num.pow10 decimalPlaces) in *.
  exists (Qfloor (amount * m + (1 # 2))). split; [|split; [done|]].
  - change 0%Z with (Qfloor 0). apply Qfloor_resp_le. nra.
  - pose proof (Qfloor_le (amount * m + (1 # 2))) as Hlo.
    pose proof (Qlt_floor (amount * m + (1 # 2))) as Hhi.
    rewrite inject_Z_plus in Hhi. change (inject_Z 1) with 1 in Hhi.
    split; lra.
Qed.



Lemma foldl_max_ge (l : list Instr.t) (init : Q) :
  init <= foldl (λ m s, max m (Instr.amount s)) init l
  ∧ ∀ s, s ∈ l →
      Instr.amount s <= foldl (λ m s, max m (Instr.amount s)) init l.
Proof.
  revert init. induction l as [|x l IH]; intros init; simpl.
  - split; [lra|]. by intros s Hs%elem_of_nil.
  - destruct (IH (max init (Instr.amount x))) as [H1 H2].
    assert (Hm : init <= max init (Instr.amount x)
                 ∧ Instr.amount x <= max init (Instr.amount x)).
    { unfold max. destruct (Num.ltb init (Instr.amount x)) eqn:E.
      - apply ltb_lt in E. lra.
      - apply ltb_ge in E. lra. }
    split; [lra|]. intros s [->|Hs]%elem_of_cons; [lra|by apply H2].
Qed.

Lemma foldl_min_le (l : list Instr.t) (init : Q) :
  foldl (λ m s, Num.min m (Instr.amount s)) init l <= init
  ∧ ∀ s, s ∈ l →
      foldl (λ m s, Num.min m (Instr.amount s)) init l <= Instr.amount s.
Proof.
  revert init. induction l as [|x l IH]; intros init; simpl.
  - split; [lra|]. by intros s Hs%elem_of_nil.
  - destruct (IH (Num.min init (Instr.amount x))) as [H1 H2].
    assert (Hm : Num.min init (Instr.amount x) <= init
                 ∧ Num.min init (Instr.amount x) <= Instr.amount x).
    { destruct (min_cases init (Instr.amount x)) as [[? ->]|[? ->]]; lra. }
    split; [lra|]. intros s [->|Hs]%elem_of_cons; [lra|by apply H2].
Qed.

Lemma foldl_sum_bounds (lo hi : Q) (l : list Instr.t) (acc : Q) :
  (∀ s, s ∈ l → lo <= Instr.amount s <= hi) →
  acc + lo * inject_Z (Z.of_nat (length l))
  <= foldl (λ sum s, sum + Instr.amount s) acc l
  <= acc + hi * inject_Z (Z.of_nat (length l)).
Proof.
  revert acc. induction l as [|x l IH]; intros acc Hl.
  - simpl. change (inject_Z (Z.of_nat 0)) with 0. lra.
  - cbn [foldl length]. rewrite length_Q_succ.
    assert (Hx : lo <= Instr.amount x <= hi) by (apply Hl; left).
    destruct (IH (acc + Instr.amount x)) as [H1 H2].
    { intros s Hs. apply Hl. by right. }
    lra.
Qed.



End Reports.

(** ** Sorting by a string key *)

Section SortedByKey.
Import Spec.
Context {A : Type} (key : A → string).

Lemma ordered_nil (R : A → A → Prop) : ordered R [].
Proof. intros i j a b _ H. by rewrite lookup_nil in H. Qed.

Lemma ordered_cons (R : A → A → Prop) (x : A) (l : list A) :
  ordered R (x :: l) ↔ Forall (R x) l ∧ ordered R l.
Proof.
  split.
  - intros H. split.
    + apply Forall_forall. intros y Hy.
      apply list_elem_of_lookup in Hy as [j Hj].
      apply (H 0%nat (S j)); [lia|done..].
    + intros i j a b Hij Ha Hb. apply (H (S i) (S j)); [lia|done..].
  - intros [Hx Hl] i j a b Hij Ha Hb.
    destruct j as [|j]; [lia|]. simpl in Hb.
    destruct i as [|i]; simpl in Ha.
    + injection Ha as <-. apply (proj1 (Forall_forall _ _) Hx).
      by eapply list_elem_of_lookup_2.
    + apply (Hl i j); [lia|done..].
Qed.

Lemma keyLe_trans (a b c : A) : keyLe key a b → keyLe key b c → keyLe key a c.
Proof.
  unfold keyLe. intros Hab Hbc.
  destruct (String.compare (key a) (key b)) eqn:E1; [| |done].
  - apply String.compare_eq_iff in E1. by rewrite E1.
  - destruct (String.compare (key b) (key c)) eqn:E2; [| |done].
    + apply String.compare_eq_iff in E2. by rewrite <- E2, E1.
    + apply OrderedTypeEx.String_as_OT.cmp_lt in E1, E2.
      pose proof (OrderedTypeEx.String_as_OT.lt_trans _ _ _ E1 E2) as H.
      apply OrderedTypeEx.String_as_OT.cmp_lt in H.
      unfold OrderedTypeEx.String_as_OT.cmp in H. by rewrite H.
Qed.

Lemma keyLe_total (a b : A) :
  String.compare (key a) (key b) = Gt → keyLe key b a.
Proof.
  unfold keyLe. intros H. rewrite String.compare_antisym, H. done.
Qed.

Lemma insert_sorted_ordered (x : A) (l : list A) :
  ordered (keyLe key) l →
  ordered (keyLe key)
    (Num.insert_sorted (λ a b, String.compare (key a) (key b)) x l).
Proof.
  induction l as [|y l IH]; intros Hl; simpl.
  - apply ordered_cons. split; [done|apply ordered_nil].
  - apply ordered_cons in Hl as [Hy Hl].
    destruct (String.compare (key x) (key y)) eqn:E.
    + apply ordered_cons. split; [|by apply ordered_cons].
      assert (Hxy : keyLe key x y) by (unfold keyLe; by rewrite E).
      constructor; [done|].
      eapply Forall_impl; [exact Hy|]. intros z Hz.
      by apply (keyLe_trans x y z).
    + apply ordered_cons. split; [|by apply ordered_cons].
      assert (Hxy : keyLe key x y) by (unfold keyLe; by rewrite E).
      constructor; [done|].
      eapply Forall_impl; [exact Hy|]. intros z Hz.
      by apply (keyLe_trans x y z).
    + apply ordered_cons. split; [|by apply IH].
      rewrite insert_sorted_perm. constructor; [|done].
      by apply keyLe_total.
Qed.

Lemma sort_ordered (l : list A) :
  ordered (keyLe key)
    (Num.sort (λ a b, String.compare (key a) (key b)) l).
Proof.
  induction l as [|x l IH]; simpl; [apply ordered_nil|].
  by apply insert_sorted_ordered.
Qed.

(** Distinct keys come out in strictly ascending order. *)
Lemma sort_ascending (l : list A) (i j : nat) (a b : A) :
  NoDup (key <$> l) → (i < j)%nat →
  Num.sort (λ a b, String.compare (key a) (key b)) l !! i = Some a →
  Num.sort (λ a b, String.compare (key a) (key b)) l !! j = Some b →
  String.compare (key a) (key b) = Lt.
Proof.
  intros Hnd Hij Ha Hb.
  pose proof (sort_ordered l i j a b Hij Ha Hb) as Hle.
  assert (Hnd' : NoDup (key <$> Num.sort (λ a b, String.compare (key a) (key b))
                                         l))
    by (by rewrite sort_perm).
  destruct (String.compare (key a) (key b)) eqn:E; [|done|done].
  apply String.compare_eq_iff in E. exfalso.
  assert (i = j); [|lia].
  apply (NoDup_lookup _ i j (key a) Hnd'); rewrite list_lookup_fmap.
  - by rewrite Ha.
  - by rewrite Hb, E.
Qed.

End SortedByKey.

(** ** Reports by category and by month *)

Section Breakdown.
Import Calculate Spec Examples.
Local Open Scope Q_scope.

Lemma filter_snoc_True {A : Type} (P : A → Prop) `{∀ x, Decision (P x)}
    (l : list A) (x : A) :
  P x → filter P (l ++ [x]) = filter P l ++ [x].
Proof. intros Hx. by rewrite filter_app, filter_cons_True, filter_nil. Qed.

Lemma filter_snoc_False {A : Type} (P : A → Prop) `{∀ x, Decision (P x)}
    (l : list A) (x : A) :
  ¬ P x → filter P (l ++ [x]) = filter P l.
Proof.
  intros Hx. by rewrite filter_app, filter_cons_False, filter_nil, app_nil_r.
Qed.

Lemma sumAmounts_snoc (l : list ExpenseData.t) (e : ExpenseData.t) :
  sumAmounts (l ++ [e]) = sumAmounts l + Num.or0 (ExpenseData.amount e).
Proof. unfold sumAmounts. by rewrite foldl_snoc. Qed.

Lemma tally_all_present (expenses : list ExpenseData.t)
    (acc : gmap string Category.t * Q) :
  foldl (λ acc entry, a ← acc; expense ← entry; Some (tally a expense))
        (Some acc) (Some <$> expenses)
  = Some (foldl tally acc expenses).
Proof.
  revert acc. induction expenses as [|e expenses IH]; intros acc; simpl;
    [done|]. apply IH.
Qed.

Lemma tally_null (expenses : list (option ExpenseData.t)) :
  None ∈ expenses →
  foldl (λ acc entry, a ← acc; expense ← entry; Some (tally a expense))
        (Some (∅, 0)) expenses = None.
Proof.
  generalize (Some (∅ : gmap string Category.t, 0)).
  induction expenses as [|e expenses IH]; intros acc Hin.
  - by apply elem_of_nil in Hin.
  - simpl. apply elem_of_cons in Hin as [<-|Hin]; [|by apply IH].
    replace (acc ≫= λ a, None ≫= λ expense, Some (tally a expense))
      with (@None (gmap string Category.t * Q)) by (by destruct acc).
    clear. induction expenses as [|e expenses IH]; simpl; [done|apply IH].
Qed.

(** What the first loop of [calculateCategoryBreakdown] has gathered. *)
Lemma tally_fold (expenses : list ExpenseData.t) (c : string) :
  (foldl tally (∅, 0) expenses).2 = sumAmounts expenses
  ∧ (foldl tally (∅, 0) expenses).1 !! c
    = if decide (inCategory c expenses = []) then None
      else Some (Category.mk (sumAmounts (inCategory c expenses)) 0
                             (length (inCategory c expenses))).
Proof.
  induction expenses as [|e expenses [IH1 IH2]] using rev_ind.
  - split; [done|]. simpl. by rewrite lookup_empty.
  - rewrite foldl_snoc. unfold tally at 1 3. cbv zeta. simpl.
    rewrite IH1, sumAmounts_snoc. split; [done|].
    unfold inCategory in *.
    set (c0 := Num.orElse (ExpenseData.category e) "Other") in *.
    destruct (decide (c0 = c)) as [Hc|Hc].
    + rewrite filter_snoc_True by done.
      rewrite decide_False by (by intros [_ ?]%app_eq_nil).
      rewrite sumAmounts_snoc, length_app. subst c.
      rewrite lookup_insert_eq, IH2. simpl.
      case_decide as Hnil; [by rewrite Hnil|simpl].
      by rewrite Nat.add_1_r.
    + rewrite filter_snoc_False by done.
      by rewrite lookup_insert_ne.
Qed.



End Breakdown.

Section Months.
Import Calculate Spec Examples.
Local Open Scope Q_scope.

Lemma growthStep_same (trends : list Trend.t) (k n : nat) (t' : Trend.t) :
  growthStep trends k !! n = Some t' →
  ∃ t, trends !! n = Some t
       ∧ Trend.month t' = Trend.month t
       ∧ Trend.total t' = Trend.total t
       ∧ Trend.count t' = Trend.count t
       ∧ (k ≠ n → t' = t).
Proof.
  unfold growthStep.
  destruct (trends !! (k - 1)%nat) as [previous|]; [|by eauto 10].
  destruct (trends !! k) as [current|] eqn:Ek; [|by eauto 10].
  intros [(-> & <- & _)|[Hne H]]%list_lookup_insert_Some.
  - exists current. by repeat split.
  - exists t'. by repeat split.
Qed.

Lemma growthLoop_same (trends : list Trend.t) (count n : nat) (t' : Trend.t) :
  foldl growthStep trends (seq 1 count) !! n = Some t' →
  ∃ t, trends !! n = Some t
       ∧ Trend.month t' = Trend.month t
       ∧ Trend.total t' = Trend.total t
       ∧ Trend.count t' = Trend.count t
       ∧ (n = 0%nat → t' = t).
Proof.
  revert t'. induction count as [|count IH]; intros t'.
  - simpl. intros H. exists t'. by repeat split.
  - rewrite growthLoop_S. intros H.
    apply growthStep_same in H as (t1 & H1 & Hm & Ht & Hc & Hsame).
    apply IH in H1 as (t & H & Hm' & Ht' & Hc' & Hsame').
    exists t. split; [done|].
    split; [congruence|]. split; [congruence|]. split; [congruence|].
    intros ->. rewrite Hsame by lia. by apply Hsame'.
Qed.

Lemma growthLoop_length (trends : list Trend.t) (count : nat) :
  length (foldl growthStep trends (seq 1 count)) = length trends.
Proof.
  induction count as [|count IH]; [done|].
  by rewrite growthLoop_S, growthStep_length.
Qed.





End Months.

(** ** Absences by date range *)

Section DateRanges.
Import Storage Presence Spec Examples.

Lemma getByDateRange_elem (startDate : Z) (endDate : option Z) (st : store)
    (r : Absence.t) :
  r ∈ getByDateRange startDate endDate st
  ↔ r ∈ presence st
    ∧ overlapsStored startDate (default startDate endDate) r.
Proof.
  unfold getByDateRange, getAll, getPresenceRecords, overlapsStored.
  cbv zeta. rewrite list_elem_of_filter. split.
  - intros [H ?]. split; [done|]. lia.
  - intros [? H]. split; [|done]. lia.
Qed.

(** X29. When every stored absence has an end date, as every record
    written by [savePresenceRecord] has, a record is accepted exactly when
    [getByDateRange] finds no absence of the same member in its range;
    the accepted record is stored with an end date as well. *)
Theorem savePresenceRecord_iff_range_free (fresh : string) (now : Z)
    (data : Absence.data) (st : store) :
  Forall (λ r, is_Some (Absence.endDate r)) (presence st) →
  ((∀ r, r ∈ getByDateRange (Absence.d_startDate data) (Some (endOf data)) st →
         Absence.memberId r ≠ Absence.d_memberId data)
   ↔ ∃ rec st', savePresenceRecord fresh now data st = (Ok rec, st'))
  ∧ ∀ rec st', savePresenceRecord fresh now data st = (Ok rec, st') →
      Forall (λ r, is_Some (Absence.endDate r)) (presence st').
Proof.
  intros Hends. split; [split|].
  - intros Hfree. unfold savePresenceRecord. cbv zeta.
    rewrite bool_decide_eq_false_2; [by eexists _, _|].
    intros Hlen.
    destruct (filter _ (getPresenceRecords st)) as [|r l] eqn:Ef;
      [simpl in Hlen; lia|].
    assert (Hr : r ∈ r :: l) by left. rewrite <- Ef in Hr.
    apply list_elem_of_filter in Hr as [[Hm Hov] Hr]. simpl in Hm, Hov.
    apply (Hfree r); [|done].
    apply getByDateRange_elem. split; [done|]. simpl.
    apply (proj1 (Forall_forall _ _) Hends) in Hr as [e He].
    unfold overlapsStored, endOf. rewrite He in *. simpl in *.
    apply Is_true_false, orb_false_iff in Hov as [H1 H2].
    apply bool_decide_eq_false in H1, H2. lia.
  - intros (rec & st' & Hsave) r Hr Hm.
    apply getByDateRange_elem in Hr as [Hr Hov].
    destruct (savePresenceRecord_Ok _ _ _ _ _ _ Hsave) as (_ & Hnew & _).
    by apply (Hnew r).
  - intros rec st' Hsave.
    destruct (savePresenceRecord_Ok _ _ _ _ _ _ Hsave) as (-> & _ & ->).
    simpl. destruct (list_find _ _) as [[index x]|].
    + apply Forall_insert; [done|]. by eexists.
    + apply Forall_app. split; [done|]. constructor; [by eexists|done].
Qed.

Lemma savePresenceRecord_iff_range_free_witness :
  let carolAway := Absence.mkData None "carol" 2 None "Visit" in
  Forall (λ r, is_Some (Absence.endDate r)) (presence withRent)
  ∧ getByDateRange 2 (Some 2%Z) withRent = [bobAway]
  ∧ ∃ rec st', savePresenceRecord "fresh" 9 carolAway withRent = (Ok rec, st').
Proof.
  intros carolAway.
  assert (H : Forall (λ r, is_Some (Absence.endDate r)) (presence withRent))
    by (constructor; [by eexists|constructor]).
  split; [exact H|]. split; [vm_compute; reflexivity|].
  apply (proj1 (proj1 (savePresenceRecord_iff_range_free "fresh" 9 carolAway
                         withRent H))).
  intros r Hr. apply getByDateRange_elem in Hr as [Hr _].
  apply list_elem_of_singleton in Hr as ->. discriminate.
Defined.

(** X30. A member is absent on a day exactly when [getByDateRange] for
    that single day returns one of the member's records. *)
Theorem isAbsent_iff_getByDateRange (memberId : string) (date : Z)
    (st : store) :
  isAbsent memberId date st = true
  ↔ ∃ r, r ∈ getByDateRange date None st ∧ Absence.memberId r = memberId.
Proof.
  unfold isAbsent. rewrite existsb_exists. split.
  - intros (r & Hr%list_elem_of_In & Hc). apply covers_spec in Hc as [Hm Hin].
    exists r. split; [|done]. apply getByDateRange_elem.
    split; [done|]. unfold overlapsStored, inRange in *. simpl. lia.
  - intros (r & Hr & Hm). apply getByDateRange_elem in Hr as [Hr Hov].
    exists r. split; [by apply list_elem_of_In|].
    apply covers_spec. split; [done|].
    unfold overlapsStored, inRange in *. simpl in *. lia.
Qed.

(** A day inside Bob's absence, checked both ways. *)
Lemma isAbsent_iff_getByDateRange_witness :
  isAbsent "bob" 3 withRent = true
  ∧ ∃ r, r ∈ getByDateRange 3 None withRent ∧ Absence.memberId r = "bob"%string.
Proof.
  assert (H : isAbsent "bob" 3 withRent = true) by (vm_compute; reflexivity).
  split; [exact H|].
  exact (proj1 (isAbsent_iff_getByDateRange "bob" 3 withRent) H).
Defined.

End DateRanges.
